(** * fractal-tree: the Y-shaped tree, the garden director and its timers

    A shallow embedding of [src/js/main.js].

    Numbers.  A JavaScript number is modelled as a real ([R]): [Math.PI],
    [Math.cos] and [Math.sin] are [PI], [cos] and [sin], and [b ** 7] is
    [b ^ 7].  The queue discipline, the timers and the canvas are modelled
    as the code has them; only rounding is idealised.  What depends on
    rounding (how deep the tree grows, when the queue empties, how much is
    painted) is proved a second time in module [Generic], which embeds the
    director over an arbitrary arithmetic and assumes no law of it; IEEE
    binary64, the arithmetic the code runs in, is the instance [binary64].
    Module [Binary64] replays the one comparison on which the depth of the
    recursion depends in that arithmetic.

    Objects.  The page holds one canvas, a heap of director objects, the
    global [window.gardenDirector] reference and the interval timers that
    [window.setInterval] has registered. *)

From Stdlib Require Import Reals Lra Lia Sorted Floats.
From stdpp Require Import gmap strings list.

Open Scope R_scope.

(** ** Geometry: [class Point], [class Tree] *)

Module Point.
Record Point := new { x : R; y : R }.
End Point.
Abbreviation Point := Point.Point.

(** [class Tree]: the constructor stores its five arguments. *)
Record Tree := new_Tree {
  root : Point;
  trunkHeight : R;
  branchRatio : R;
  branchAngle : R;
  treeIncline : R
}.

Definition p0 (t : Tree) : Point := root t.

Definition p1 (t : Tree) : Point :=
  let a := treeIncline t - PI / 2 in
  let x := cos a * trunkHeight t + Point.x (p0 t) in
  let y := sin a * trunkHeight t + Point.y (p0 t) in
  Point.new x y.

Definition p2 (t : Tree) : Point :=
  let a := branchAngle t / 2 - treeIncline t in
  let branchLength := trunkHeight t * branchRatio t in
  let x := Point.x (p1 t) - sin a * branchLength in
  let y := Point.y (p1 t) - cos a * branchLength in
  Point.new x y.

Definition p3 (t : Tree) : Point :=
  let a := branchAngle t / 2 + treeIncline t in
  let branchLength := trunkHeight t * branchRatio t in
  let x := Point.x (p1 t) + sin a * branchLength in
  let y := Point.y (p1 t) - cos a * branchLength in
  Point.new x y.

(** ** The drawing surface: the five path operations and [clearRect] *)

(** One stroked line segment, with the stroke style it was painted in. *)
Record Stroke := new_Stroke {
  style : string;
  from : Point;
  to : Point
}.

(** The canvas element with the state of its 2D context: the current
    stroke style, the current point and path, and what has been painted. *)
Record Canvas := new_Canvas {
  width : R;
  height : R;
  strokeStyle : string;
  pen : option Point;
  path : list (Point * Point);
  painted : list Stroke
}.

Definition beginPath (c : Canvas) : Canvas :=
  new_Canvas (width c) (height c) (strokeStyle c) None [] (painted c).

Definition set_strokeStyle (s : string) (c : Canvas) : Canvas :=
  new_Canvas (width c) (height c) s (pen c) (path c) (painted c).

Definition moveTo (x y : R) (c : Canvas) : Canvas :=
  new_Canvas (width c) (height c) (strokeStyle c)
             (Some (Point.new x y)) (path c) (painted c).

(** With no current point, [lineTo] only sets it. *)
Definition lineTo (x y : R) (c : Canvas) : Canvas :=
  let q := Point.new x y in
  match pen c with
  | None =>
      new_Canvas (width c) (height c) (strokeStyle c) (Some q) (path c) (painted c)
  | Some p =>
      new_Canvas (width c) (height c) (strokeStyle c) (Some q)
                 (path c ++ [(p, q)]) (painted c)
  end.

Definition stroke (c : Canvas) : Canvas :=
  new_Canvas (width c) (height c) (strokeStyle c) (pen c) (path c)
             (painted c ++ map (fun s => new_Stroke (strokeStyle c) (fst s) (snd s)) (path c)).

(** [ctx.clearRect(0, 0, canvas.width, canvas.height)], the only way the
    program clears: the rectangle is the whole canvas, so nothing painted
    remains.  The current path and style are not touched. *)
Definition clearRect_canvas (c : Canvas) : Canvas :=
  new_Canvas (width c) (height c) (strokeStyle c) (pen c) (path c) [].

Definition blank (c : Canvas) : Prop := painted c = [].

(** Statement sequencing on the context: [c |> op] runs [op] on [c]. *)
Notation "c |> op" := (op c) (at level 45, left associativity, only parsing).

(** ** [class GardenDirector] *)

(** The director's own fields.  Its [canvas] and [canvasContext] fields are
    references to the page's single canvas, which the operations below take
    and return explicitly. *)
Record GardenDirector := new_GardenDirector {
  trees : list Tree;
  maxTrunkHeight : R;
  timerId : option nat
}.

Definition set_trees (q : list Tree) (d : GardenDirector) : GardenDirector :=
  new_GardenDirector q (maxTrunkHeight d) (timerId d).

Definition set_timerId (i : option nat) (d : GardenDirector) : GardenDirector :=
  new_GardenDirector (trees d) (maxTrunkHeight d) i.

Definition drawTree (tree : Tree) (ctx : Canvas) : Canvas :=
  ctx
  |> beginPath
  |> set_strokeStyle "#333344"
  |> moveTo (Point.x (p0 tree)) (Point.y (p0 tree))
  |> lineTo (Point.x (p1 tree)) (Point.y (p1 tree))
  |> stroke
  |> beginPath
  |> set_strokeStyle "#333344"
  |> moveTo (Point.x (p1 tree)) (Point.y (p1 tree))
  |> lineTo (Point.x (p2 tree)) (Point.y (p2 tree))
  |> stroke
  |> beginPath
  |> set_strokeStyle "#AA3340"
  |> moveTo (Point.x (p1 tree)) (Point.y (p1 tree))
  |> lineTo (Point.x (p3 tree)) (Point.y (p3 tree))
  |> stroke.

(** The two trees that [planNextTrees] builds from [sourceTree]. *)
Definition nextTrees (sourceTree : Tree) : list Tree :=
  let root := p1 sourceTree in
  let trunkHeight := trunkHeight sourceTree * branchRatio sourceTree in
  let branchRatio := branchRatio sourceTree in
  let branchAngle := branchAngle sourceTree in
  let treeInclineLeft := treeIncline sourceTree - branchAngle / 2 in
  let treeInclineRight := treeIncline sourceTree + branchAngle / 2 in
  [ new_Tree root trunkHeight branchRatio branchAngle treeInclineLeft;
    new_Tree root trunkHeight branchRatio branchAngle treeInclineRight ].

(** [this.trees.push(left, right)] *)
Definition planNextTrees (sourceTree : Tree) (d : GardenDirector) : GardenDirector :=
  set_trees (trees d ++ nextTrees sourceTree) d.

(** [work()]: [shift()] takes the front tree, or yields [undefined] on an
    empty array; [<] is strict. *)
Definition work (s : GardenDirector * Canvas) : GardenDirector * Canvas :=
  let (d, ctx) := s in
  match trees d with
  | [] => (d, ctx)
  | tree :: rest =>
      let d := set_trees rest d in
      if Rlt_dec (trunkHeight tree) (maxTrunkHeight d)
      then (d, ctx)
      else (planNextTrees tree d, drawTree tree ctx)
  end.

(** ** The geometry as the specification words it

    [trunkEnd], [leftChildEnd] and [rightChildEnd] follow section 4.1 of the
    specification, not the code; they are compared with [p1], [p2] and [p3]
    below. *)

Definition rotate (theta : R) (v : Point) : Point :=
  Point.new (cos theta * Point.x v - sin theta * Point.y v)
            (sin theta * Point.x v + cos theta * Point.y v).

Definition scale (k : R) (v : Point) : Point :=
  Point.new (k * Point.x v) (k * Point.y v).

Definition translate (o v : Point) : Point :=
  Point.new (Point.x o + Point.x v) (Point.y o + Point.y v).

Definition trunkEnd (t : Tree) : Point :=
  translate (root t)
            (scale (trunkHeight t) (rotate (treeIncline t - PI / 2) (Point.new 1 0))).

Definition leftChildEnd (t : Tree) : Point :=
  let a := branchAngle t / 2 - treeIncline t in
  let branchLen := trunkHeight t * branchRatio t in
  translate (trunkEnd t) (Point.new (- sin a * branchLen) (- cos a * branchLen)).

Definition rightChildEnd (t : Tree) : Point :=
  let a := branchAngle t / 2 + treeIncline t in
  let branchLen := trunkHeight t * branchRatio t in
  translate (trunkEnd t) (Point.new (sin a * branchLen) (- cos a * branchLen)).

(** ** [class GardenSpec] and the director's constructor *)

(** What the page's form holds when a director is constructed: the values
    of the inputs [trunk-height], [branch-ratio] and [branch-angle] (the
    last one in degrees). *)
Record Form := new_Form {
  trunk_height : R;
  branch_ratio : R;
  branch_angle : R
}.

Record GardenSpec := new_GardenSpec {
  initialTrees : list Tree
}.

Definition GardenSpec_new (f : Form) (canvas : Canvas) : GardenSpec :=
  let trunkHeight := trunk_height f in
  let branchRatio := branch_ratio f in
  let branchAngle := PI * branch_angle f / 180 in
  new_GardenSpec
    [ new_Tree (Point.new (width canvas / 2) (height canvas * 0.88))
               trunkHeight branchRatio branchAngle 0 ].

(** The director for a given list of initial trees; [this.trees[0]] of an
    empty array is [undefined], and reading its field throws. *)
Definition GardenDirector_of (initial : list Tree) : option GardenDirector :=
  let trees := initial in
  t0 ← trees !! 0%nat;
  Some (new_GardenDirector trees (trunkHeight t0 * branchRatio t0 ^ 7) None).

Definition GardenDirector_new (f : Form) (canvas : Canvas) : option GardenDirector :=
  let spec := GardenSpec_new f canvas in
  GardenDirector_of (initialTrees spec).

(** ** Running the director: repeated [work()] *)

Fixpoint steps (n : nat) (s : GardenDirector * Canvas) : GardenDirector * Canvas :=
  match n with
  | O => s
  | S n => steps n (work s)
  end.

(** How many trees one [work()] pushes: the growth of the array over what
    [shift()] left of it. *)
Definition pushed (s : GardenDirector * Canvas) : nat :=
  (length (trees (fst (work s))) - length (tail (trees (fst s))))%nat.

(** The trees ever placed on the queue up to the [n]-th [work()]: the
    initial ones and every one pushed since. *)
Fixpoint pushes (n : nat) (s : GardenDirector * Canvas) : nat :=
  match n with
  | O => O
  | S n => (pushed s + pushes n (work s))%nat
  end.

Definition placed (n : nat) (s : GardenDirector * Canvas) : nat :=
  (length (trees (fst s)) + pushes n s)%nat.

(** Generation [k] of a root tree, in the order the queue holds it. *)
Fixpoint generation (k : nat) (t : Tree) : list Tree :=
  match k with
  | O => [t]
  | S k => flat_map nextTrees (generation k t)
  end.

(** Generations [0 .. k-1], breadth first. *)
Definition generations (k : nat) (t : Tree) : list Tree :=
  flat_map (fun j => generation j t) (seq 0 k).

(** The three segments [drawTree] paints for a tree. *)
Definition strokesOf (t : Tree) : list Stroke :=
  [ new_Stroke "#333344" (p0 t) (p1 t);
    new_Stroke "#333344" (p1 t) (p2 t);
    new_Stroke "#AA3340" (p1 t) (p3 t) ].

Definition drawTrees (l : list Tree) (ctx : Canvas) : Canvas :=
  fold_left (fun c t => drawTree t c) l ctx.

(** ** The page: [window.gardenDirector], the timers, [start()] and [stop()] *)

(** A timer registered by [window.setInterval(() => this.work(), 10)]: the
    director the arrow function closes over, and the delay. *)
Record Interval := new_Interval {
  callback_this : nat;
  delay : nat
}.

Record Window := new_Window {
  form : Form;
  canvas : Canvas;
  heap : gmap nat GardenDirector;
  gardenDirector : option nat;
  intervals : gmap nat Interval;
  nextTimer : nat
}.

Definition set_canvas (c : Canvas) (w : Window) : Window :=
  new_Window (form w) c (heap w) (gardenDirector w) (intervals w) (nextTimer w).

Definition set_heap (h : gmap nat GardenDirector) (w : Window) : Window :=
  new_Window (form w) (canvas w) h (gardenDirector w) (intervals w) (nextTimer w).

Definition set_gardenDirector (g : option nat) (w : Window) : Window :=
  new_Window (form w) (canvas w) (heap w) g (intervals w) (nextTimer w).

Definition set_intervals (t : gmap nat Interval) (w : Window) : Window :=
  new_Window (form w) (canvas w) (heap w) (gardenDirector w) t (nextTimer w).

Definition set_nextTimer (n : nat) (w : Window) : Window :=
  new_Window (form w) (canvas w) (heap w) (gardenDirector w) (intervals w) n.

(** [window.setInterval(callback, delay)]: registers a timer under a fresh
    id and returns the id. *)
Definition setInterval (this : nat) (delay : nat) (w : Window) : nat * Window :=
  let id := nextTimer w in
  (id, w |> set_intervals (<[id := new_Interval this delay]> (intervals w))
         |> set_nextTimer (S id)).

Definition clearInterval (id : nat) (w : Window) : Window :=
  set_intervals (delete id (intervals w)) w.

(** [run()] on the director at address [this]. *)
Definition run (this : nat) (w : Window) : Window :=
  let (id, w) := setInterval this 10 w in
  set_heap (alter (set_timerId (Some id)) this (heap w)) w.

(** [retire()] on the director at address [this]. *)
Definition retire (this : nat) (w : Window) : Window :=
  match heap w !! this with
  | None => w
  | Some d =>
      let w :=
        match timerId d with
        | Some id => clearInterval id w
        | None => w
        end in
      let d := set_trees [] (set_timerId None d) in
      w |> set_heap (<[this := d]> (heap w))
        |> set_canvas (clearRect_canvas (canvas w))
  end.

(** [start()]: [||=] constructs a director only when the global is unset;
    [None] is an exception thrown by the constructor. *)
Definition start (w : Window) : option Window :=
  w ← match gardenDirector w with
      | Some _ => Some w
      | None =>
          d ← GardenDirector_new (form w) (canvas w);
          let a := fresh (dom (heap w)) in
          Some (w |> set_heap (<[a := d]> (heap w))
                  |> set_gardenDirector (Some a))
      end;
  this ← gardenDirector w;
  Some (run this w).

(** [stop()]: [?.] skips [retire()] when the global is unset. *)
Definition stop (w : Window) : Window :=
  let w :=
    match gardenDirector w with
    | Some this => retire this w
    | None => w
    end in
  set_gardenDirector None w.

(** The timer [id] fires: its callback runs [work()] on its director. *)
Definition fire (id : nat) (w : Window) : Window :=
  match intervals w !! id with
  | None => w
  | Some iv =>
      match heap w !! callback_this iv with
      | None => w
      | Some d =>
          let (d', c') := work (d, canvas w) in
          w |> set_heap (<[callback_this iv := d']> (heap w))
            |> set_canvas c'
      end
  end.

(** What can happen to a page. *)
Inductive Event :=
| Start
| Stop
| Fire (id : nat).

Definition exec (e : Event) (w : Window) : option Window :=
  match e with
  | Start => start w
  | Stop => Some (stop w)
  | Fire id => Some (fire id w)
  end.

Fixpoint execs (es : list Event) (w : Window) : option Window :=
  match es with
  | [] => Some w
  | e :: es => w ← exec e w; execs es w
  end.

(** A freshly loaded page: nothing painted, no director, no timer. *)
Definition page (f : Form) (width height : R) : Window :=
  new_Window f (new_Canvas width height "#000000" None [] []) ∅ None ∅ 1.

(** The pages that a sequence of events leads to from [w0]. *)
Inductive reachable (w0 : Window) : Window → Prop :=
| reachable_init : reachable w0 w0
| reachable_exec w e w' : reachable w0 w → exec e w = Some w' → reachable w0 w'.

(** The timers count up: no registered id is ahead of the counter. *)
Definition timers_below_counter (w : Window) : Prop :=
  ∀ id, is_Some (intervals w !! id) → (id < nextTimer w)%nat.

(** The page is quiet: no director is referenced, the canvas is blank and
    any director left on the heap has an empty queue and no timer id. *)
Definition retired (w : Window) : Prop :=
  gardenDirector w = None
  ∧ blank (canvas w)
  ∧ ∀ a d, heap w !! a = Some d → trees d = [] ∧ timerId d = None.

(** What holds of every page reachable from a fresh one: without a current
    director the canvas is blank; every director other than the current one
    has retired; the current director is on the heap; timer ids count up. *)
Definition page_invariant (w : Window) : Prop :=
  (gardenDirector w = None → blank (canvas w))
  ∧ (∀ a d, heap w !! a = Some d → gardenDirector w ≠ Some a →
            trees d = [] ∧ timerId d = None)
  ∧ (∀ a, gardenDirector w = Some a → is_Some (heap w !! a))
  ∧ timers_below_counter w.

(** ** The scenario of the specification

    Trunk height 100, branch ratio 0.7, branch angle 30 degrees, on a canvas
    whose size puts the root at (100, 100). *)

Definition scenario_form : Form := new_Form 100 0.7 30.

Definition scenario_page : Window := page scenario_form 200 (100 / 0.88).

Definition scenario_root : Tree :=
  new_Tree (Point.new 100 100) 100 0.7 (PI / 6) 0.

Definition scenario_director : GardenDirector :=
  new_GardenDirector [scenario_root] (100 * 0.7 ^ 7) None.

(** A second configuration, with a ratio that binary floating point
    represents exactly. *)
Definition halving_root : Tree :=
  new_Tree (Point.new 100 100) 100 (1 / 2) (PI / 6) 0.

Definition halving_director : GardenDirector :=
  new_GardenDirector [halving_root] (100 * (1 / 2) ^ 7) None.

(** ** Order in the queue *)

(** Trunk heights never grow from the front of the queue to its back. *)
Definition nonincreasing (q : list Tree) : Prop :=
  StronglySorted (λ t u, trunkHeight u <= trunkHeight t) q.

(** Breadth-first order: the queue is what is left of some generation [k]
    after its first [j] trees were taken off, followed by the children of
    those [j] trees in the same order, or by nothing when they had none. *)
Definition bfs_queue (root : Tree) (q : list Tree) : Prop :=
  ∃ k j : nat,
    q = drop j (generation k root) ++ flat_map nextTrees (take j (generation k root))
    ∨ q = drop j (generation k root).

(** The queue between two generations when generations 0 to 7 have
    children and generation 8 has none: [j] trees of generation [k] have
    been taken off. *)
Definition frontier (root : Tree) (k j : nat) : list Tree :=
  drop j (generation k root)
  ++ (if decide (k ≤ 7)%nat
      then flat_map nextTrees (take j (generation k root))
      else []).

(** [t] looks like a tree of generation [k] below [root]: it has the root's
    ratio and the root's trunk height shrunk [k] times. *)
Definition of_generation (root : Tree) (k : nat) (t : Tree) : Prop :=
  trunkHeight t = trunkHeight root * branchRatio root ^ k
  ∧ branchRatio t = branchRatio root.

(** The queue holds trees of generation [k] followed by trees of generation
    [k + 1], for some [k]. *)
Definition two_generations (root : Tree) (q : list Tree) : Prop :=
  ∃ (k : nat) (older newer : list Tree),
    q = older ++ newer
    ∧ Forall (of_generation root k) older
    ∧ Forall (of_generation root (S k)) newer.

(** ** Vectors between points *)

(** The vector from [p] to [q], and the dot product of two vectors. *)
Definition vec (p q : Point) : Point :=
  Point.new (Point.x q - Point.x p) (Point.y q - Point.y p).

Definition dot (u v : Point) : R :=
  Point.x u * Point.x v + Point.y u * Point.y v.

(** The one tree [GardenSpec]'s constructor puts in [initialTrees]. *)
Definition initialTree (f : Form) (canvas : Canvas) : Tree :=
  hd (new_Tree (Point.new 0 0) 0 0 0 0) (initialTrees (GardenSpec_new f canvas)).

(** ** Timers at work *)

(** The timer [id] fires [n] times in a row. *)
Fixpoint fires (n : nat) (id : nat) (w : Window) : Window :=
  match n with
  | O => w
  | S n => fires n id (fire id w)
  end.

(** The page right after the first [start()] on a fresh page. *)
Definition running_page (f : Form) (width height : R) : Window :=
  new_Window f
    (new_Canvas width height "#000000" None [] [])
    {[ 0%nat := new_GardenDirector
                  [initialTree f (new_Canvas width height "#000000" None [] [])]
                  (trunk_height f * branch_ratio f ^ 7) (Some 1%nat) ]}
    (Some 0%nat)
    {[ 1%nat := new_Interval 0 10 ]}
    2.

(** Every registered timer has delay 10 and calls a director that is on the
    heap; the current director remembers a timer that is registered for it. *)
Definition timers_invariant (w : Window) : Prop :=
  (∀ id iv, intervals w !! id = Some iv →
            delay iv = 10%nat ∧ is_Some (heap w !! callback_this iv))
  ∧ (∀ this, gardenDirector w = Some this →
             ∃ d id, heap w !! this = Some d
                     ∧ timerId d = Some id
                     ∧ intervals w !! id = Some (new_Interval this 10)).

(** The pages reached when [start()] is only ever called while no director
    is current. *)
Inductive reachable_guarded (w0 : Window) : Window → Prop :=
| guarded_init : reachable_guarded w0 w0
| guarded_start w w' :
    reachable_guarded w0 w → gardenDirector w = None → start w = Some w' →
    reachable_guarded w0 w'
| guarded_stop w : reachable_guarded w0 w → reachable_guarded w0 (stop w)
| guarded_fire w id : reachable_guarded w0 w → reachable_guarded w0 (fire id w).

(** No timer without a current director, and exactly the one it remembers
    with one. *)
Definition one_timer (w : Window) : Prop :=
  match gardenDirector w with
  | None => intervals w = ∅
  | Some this =>
      ∃ d id, heap w !! this = Some d
              ∧ timerId d = Some id
              ∧ intervals w = {[ id := new_Interval this 10 ]}
  end.

(** ** The size test in binary64

    The numbers the size test compares, in the arithmetic JavaScript
    computes them in.  [*] and [<] are IEEE 754 binary64 operations; [**]
    is left to the engine, and is taken here as the correctly rounded power
    (the lemmas below also move it by two units in the last place). *)

Module Binary64.

(** The trunk height [planNextTrees] hands down to generation [k]. *)
Fixpoint trunkHeight_at (k : nat) (h r : float) : float :=
  match k with
  | O => h
  | S k => (trunkHeight_at k h r * r)%float
  end.

(** [r ** 7] for a finite non-zero [r], correctly rounded. *)
Definition pow7 (r : float) : float :=
  match Prim2SF r with
  | S754_finite s m e =>
      let p := SF2Prim (SpecFloat.binary_normalize prec emax (Z.pos m ^ 7) (7 * e) false) in
      if s then (- p)%float else p
  | _ => (r * r * r * r * r * r * r)%float
  end.

(** [this.trees[0].trunkHeight * this.trees[0].branchRatio ** 7] *)
Definition maxTrunkHeight (h r : float) : float := (h * pow7 r)%float.

(** [tree.trunkHeight < this.maxTrunkHeight] for a tree of generation [k]. *)
Definition discarded (k : nat) (h r m : float) : bool :=
  (trunkHeight_at k h r <? m)%float.

End Binary64.

(** ** The director over any arithmetic

    The same program once more, with the arithmetic it uses left open: a
    number type with the operations [+ - * / < **] and [Math.PI],
    [Math.cos], [Math.sin].  What is proved of it holds for every such
    arithmetic, IEEE binary64 included; no law of arithmetic is assumed. *)

Module Generic.

Class Number (num : Type) := {
  add : num → num → num;
  sub : num → num → num;
  mul : num → num → num;
  div : num → num → num;
  lt : num → num → bool;
  pow : num → num → num;
  Math_PI : num;
  Math_cos : num → num;
  Math_sin : num → num;
  two : num;
  seven : num
}.

Declare Scope number_scope.
Delimit Scope number_scope with number.
Infix "+" := add : number_scope.
Infix "-" := sub : number_scope.
Infix "*" := mul : number_scope.
Infix "/" := div : number_scope.
Infix "<?" := lt : number_scope.
Infix "**" := pow (at level 30, right associativity) : number_scope.
Local Open Scope number_scope.

Record Point (num : Type) := new_Point { x : num; y : num }.
Arguments new_Point {num} _ _.
Arguments x {num} _.
Arguments y {num} _.

Record Tree (num : Type) := new_Tree {
  root : Point num;
  trunkHeight : num;
  branchRatio : num;
  branchAngle : num;
  treeIncline : num
}.
Arguments new_Tree {num} _ _ _ _ _.
Arguments root {num} _.
Arguments trunkHeight {num} _.
Arguments branchRatio {num} _.
Arguments branchAngle {num} _.
Arguments treeIncline {num} _.

Record Stroke (num : Type) := new_Stroke {
  style : string;
  from : Point num;
  to : Point num
}.
Arguments new_Stroke {num} _ _ _.

Record Canvas (num : Type) := new_Canvas {
  width : num;
  height : num;
  strokeStyle : string;
  pen : option (Point num);
  path : list (Point num * Point num);
  painted : list (Stroke num)
}.
Arguments new_Canvas {num} _ _ _ _ _ _.
Arguments width {num} _.
Arguments height {num} _.
Arguments strokeStyle {num} _.
Arguments pen {num} _.
Arguments path {num} _.
Arguments painted {num} _.

Record GardenDirector (num : Type) := new_GardenDirector {
  trees : list (Tree num);
  maxTrunkHeight : num;
  timerId : option nat
}.
Arguments new_GardenDirector {num} _ _ _.
Arguments trees {num} _.
Arguments maxTrunkHeight {num} _.
Arguments timerId {num} _.

Section Program.

Context {num : Type} {N : Number num}.

Definition p0 (t : Tree num) : Point num := root t.

Definition p1 (t : Tree num) : Point num :=
  let a := treeIncline t - Math_PI / two in
  let x := Math_cos a * trunkHeight t + x (p0 t) in
  let y := Math_sin a * trunkHeight t + y (p0 t) in
  new_Point x y.

Definition p2 (t : Tree num) : Point num :=
  let a := branchAngle t / two - treeIncline t in
  let branchLength := trunkHeight t * branchRatio t in
  let x := x (p1 t) - Math_sin a * branchLength in
  let y := y (p1 t) - Math_cos a * branchLength in
  new_Point x y.

Definition p3 (t : Tree num) : Point num :=
  let a := branchAngle t / two + treeIncline t in
  let branchLength := trunkHeight t * branchRatio t in
  let x := x (p1 t) + Math_sin a * branchLength in
  let y := y (p1 t) - Math_cos a * branchLength in
  new_Point x y.

Definition beginPath (c : Canvas num) : Canvas num :=
  new_Canvas (width c) (height c) (strokeStyle c) None [] (painted c).

Definition set_strokeStyle (s : string) (c : Canvas num) : Canvas num :=
  new_Canvas (width c) (height c) s (pen c) (path c) (painted c).

Definition moveTo (x y : num) (c : Canvas num) : Canvas num :=
  new_Canvas (width c) (height c) (strokeStyle c)
             (Some (new_Point x y)) (path c) (painted c).

Definition lineTo (x y : num) (c : Canvas num) : Canvas num :=
  let q := new_Point x y in
  match pen c with
  | None =>
      new_Canvas (width c) (height c) (strokeStyle c) (Some q) (path c) (painted c)
  | Some p =>
      new_Canvas (width c) (height c) (strokeStyle c) (Some q)
                 (path c ++ [(p, q)]) (painted c)
  end.

Definition stroke (c : Canvas num) : Canvas num :=
  new_Canvas (width c) (height c) (strokeStyle c) (pen c) (path c)
             (painted c ++ map (fun s => new_Stroke (strokeStyle c) (fst s) (snd s)) (path c)).

Definition set_trees (q : list (Tree num)) (d : GardenDirector num) : GardenDirector num :=
  new_GardenDirector q (maxTrunkHeight d) (timerId d).

Definition drawTree (tree : Tree num) (ctx : Canvas num) : Canvas num :=
  ctx
  |> beginPath
  |> set_strokeStyle "#333344"
  |> moveTo (x (p0 tree)) (y (p0 tree))
  |> lineTo (x (p1 tree)) (y (p1 tree))
  |> stroke
  |> beginPath
  |> set_strokeStyle "#333344"
  |> moveTo (x (p1 tree)) (y (p1 tree))
  |> lineTo (x (p2 tree)) (y (p2 tree))
  |> stroke
  |> beginPath
  |> set_strokeStyle "#AA3340"
  |> moveTo (x (p1 tree)) (y (p1 tree))
  |> lineTo (x (p3 tree)) (y (p3 tree))
  |> stroke.

Definition nextTrees (sourceTree : Tree num) : list (Tree num) :=
  let root := p1 sourceTree in
  let trunkHeight := trunkHeight sourceTree * branchRatio sourceTree in
  let branchRatio := branchRatio sourceTree in
  let branchAngle := branchAngle sourceTree in
  let treeInclineLeft := treeIncline sourceTree - branchAngle / two in
  let treeInclineRight := treeIncline sourceTree + branchAngle / two in
  [ new_Tree root trunkHeight branchRatio branchAngle treeInclineLeft;
    new_Tree root trunkHeight branchRatio branchAngle treeInclineRight ].

Definition planNextTrees (sourceTree : Tree num) (d : GardenDirector num) : GardenDirector num :=
  set_trees (trees d ++ nextTrees sourceTree) d.

Definition work (s : GardenDirector num * Canvas num) : GardenDirector num * Canvas num :=
  let (d, ctx) := s in
  match trees d with
  | [] => (d, ctx)
  | tree :: rest =>
      let d := set_trees rest d in
      if trunkHeight tree <? maxTrunkHeight d
      then (d, ctx)
      else (planNextTrees tree d, drawTree tree ctx)
  end.

(** The constructor, for a given list of initial trees. *)
Definition GardenDirector_of (initial : list (Tree num)) : option (GardenDirector num) :=
  let trees := initial in
  t0 ← trees !! 0%nat;
  Some (new_GardenDirector trees (trunkHeight t0 * branchRatio t0 ** seven) None).

Fixpoint steps (n : nat) (s : GardenDirector num * Canvas num) : GardenDirector num * Canvas num :=
  match n with
  | O => s
  | S n => steps n (work s)
  end.

Definition pushed (s : GardenDirector num * Canvas num) : nat :=
  (length (trees (fst (work s))) - length (tail (trees (fst s))))%nat.

Fixpoint pushes (n : nat) (s : GardenDirector num * Canvas num) : nat :=
  match n with
  | O => O
  | S n => (pushed s + pushes n (work s))%nat
  end.

Definition placed (n : nat) (s : GardenDirector num * Canvas num) : nat :=
  (length (trees (fst s)) + pushes n s)%nat.

Fixpoint generation (k : nat) (t : Tree num) : list (Tree num) :=
  match k with
  | O => [t]
  | S k => flat_map nextTrees (generation k t)
  end.

Definition generations (k : nat) (t : Tree num) : list (Tree num) :=
  flat_map (fun j => generation j t) (seq 0 k).

Definition strokesOf (t : Tree num) : list (Stroke num) :=
  [ new_Stroke "#333344" (p0 t) (p1 t);
    new_Stroke "#333344" (p1 t) (p2 t);
    new_Stroke "#AA3340" (p1 t) (p3 t) ].

Definition drawTrees (l : list (Tree num)) (ctx : Canvas num) : Canvas num :=
  fold_left (fun c t => drawTree t c) l ctx.

(** The trunk height that [planNextTrees] hands down to generation [k]: the
    root's height multiplied by the ratio, [k] times, one product after the
    other. *)
Fixpoint height_at (k : nat) (h r : num) : num :=
  match k with
  | O => h
  | S k => height_at k h r * r
  end.

(** Generation [depth] is the first whose trunk height is below [m]. *)
Definition first_below (h r m : num) (depth : nat) : Prop :=
  (∀ k, (k < depth)%nat → (height_at k h r <? m) = false)
  ∧ (height_at depth h r <? m) = true.

Definition first_belowb (h r m : num) (depth : nat) : bool :=
  forallb (fun k => negb (height_at k h r <? m)) (seq 0 depth)
  && (height_at depth h r <? m).

(** No generation is below [m]. *)
Definition never_below (h r m : num) : Prop :=
  ∀ k, (height_at k h r <? m) = false.

End Program.

End Generic.

(** IEEE binary64, the arithmetic of a JavaScript number.  [+ - * /] and
    [<] are the IEEE operations; [Math.cos], [Math.sin] and [**] are left to
    the engine and are parameters here. *)
Definition binary64 (Math_cos Math_sin : float → float) (pow : float → float → float)
  : Generic.Number float :=
  {| Generic.add := PrimFloat.add;
     Generic.sub := PrimFloat.sub;
     Generic.mul := PrimFloat.mul;
     Generic.div := PrimFloat.div;
     Generic.lt := PrimFloat.ltb;
     Generic.pow := pow;
     Generic.Math_PI := 0x1.921fb54442d18p+1%float;
     Generic.Math_cos := Math_cos;
     Generic.Math_sin := Math_sin;
     Generic.two := 2%float;
     Generic.seven := 7%float |}.

(** [q] is [p] or one of its two neighbours in binary64. *)
Definition within_one_ulp (p q : float) : Prop :=
  q = next_down p ∨ q = p ∨ q = next_up p.

(** An engine to run examples on: [**] with exponent 7 is the correctly
    rounded power; [Math.cos] and [Math.sin], which play no part in the size
    test, are stand-ins. *)
Definition sample_engine : Generic.Number float :=
  binary64 (fun a => a) (fun a => a) (fun r _ => Binary64.pow7 r).

(** A root tree at (100, 100) with angle [Math.PI / 6] and incline 0. *)
Definition binary64_root (h r : float) : Generic.Tree float :=
  Generic.new_Tree (Generic.new_Point 100%float 100%float) h r
                   (0x1.921fb54442d18p+1 / 6)%float 0%float.

Definition binary64_canvas : Generic.Canvas float :=
  Generic.new_Canvas 200%float 100%float "#000000" None [] [].

(** * Properties *)

(** ** One [work()] *)

Lemma work_idle d ctx : trees d = [] → work (d, ctx) = (d, ctx).
Proof. intros E. unfold work. by rewrite E. Qed.

Lemma work_discard d ctx tree rest :
  trees d = tree :: rest →
  trunkHeight tree < maxTrunkHeight d →
  work (d, ctx) = (set_trees rest d, ctx).
Proof.
  intros E Hlt. unfold work. rewrite E. simpl.
  destruct (Rlt_dec _ _) as [_|Hn]; [done | contradiction].
Qed.

Lemma work_draw d ctx tree rest :
  trees d = tree :: rest →
  ¬ trunkHeight tree < maxTrunkHeight d →
  work (d, ctx) = (set_trees (rest ++ nextTrees tree) d, drawTree tree ctx).
Proof.
  intros E Hge. unfold work. rewrite E. simpl.
  destruct (Rlt_dec _ _) as [Hlt|_]; [contradiction | done].
Qed.

Lemma work_maxTrunkHeight s : maxTrunkHeight (fst (work s)) = maxTrunkHeight (fst s).
Proof.
  destruct s as [d ctx]. unfold work.
  destruct (trees d) as [|tree rest]; [done|]. simpl.
  by destruct (Rlt_dec _ _).
Qed.

Lemma work_timerId s : timerId (fst (work s)) = timerId (fst s).
Proof.
  destruct s as [d ctx]. unfold work.
  destruct (trees d) as [|tree rest]; [done|]. simpl.
  by destruct (Rlt_dec _ _).
Qed.

Lemma steps_add n m s : steps (n + m) s = steps m (steps n s).
Proof. revert s. induction n as [|n IH]; intros s; simpl; [done | by rewrite IH]. Qed.

Lemma steps_S_r n s : steps (S n) s = work (steps n s).
Proof. by rewrite <- Nat.add_1_r, steps_add. Qed.

Lemma steps_maxTrunkHeight n s :
  maxTrunkHeight (fst (steps n s)) = maxTrunkHeight (fst s).
Proof.
  revert s. induction n as [|n IH]; intros s; simpl; [done|].
  by rewrite IH, work_maxTrunkHeight.
Qed.

Lemma GardenDirector_of_root t :
  GardenDirector_of [t]
  = Some (new_GardenDirector [t] (trunkHeight t * branchRatio t ^ 7) None).
Proof. reflexivity. Qed.

(** The constructor never throws: [GardenSpec] always supplies one tree. *)
Lemma GardenDirector_new_Some f cv :
  GardenDirector_new f cv
  = Some (new_GardenDirector
            [ new_Tree (Point.new (width cv / 2) (height cv * 0.88))
                       (trunk_height f) (branch_ratio f)
                       (PI * branch_angle f / 180) 0 ]
            (trunk_height f * branch_ratio f ^ 7) None).
Proof. reflexivity. Qed.

(** ** Geometry *)

Lemma Point_eta (p : Point) : Point.new (Point.x p) (Point.y p) = p.
Proof. by destruct p. Qed.

(** C5: the trunk's end [p1] is the origin translated by the unit vector
    rotated by [incline - PI/2] and scaled by the trunk length, that is
    [(origin.x + cos (incline - PI/2) * trunkLength,
      origin.y + sin (incline - PI/2) * trunkLength)]. *)
Theorem p1_trunkEnd (t : Tree) :
  p1 t = trunkEnd t ∧
  p1 t = Point.new (Point.x (root t) + cos (treeIncline t - PI / 2) * trunkHeight t)
                   (Point.y (root t) + sin (treeIncline t - PI / 2) * trunkHeight t).
Proof.
  unfold p1, trunkEnd, translate, scale, rotate, p0; simpl.
  split; f_equal; ring.
Qed.

(** C6: with [branchLen = trunkLength * branchRatio], the left end [p2] is
    [p1] offset by [(- sin a * branchLen, - cos a * branchLen)] for
    [a = branchAngle/2 - incline], and the right end [p3] is [p1] offset by
    [(sin a * branchLen, - cos a * branchLen)] for
    [a = branchAngle/2 + incline]. *)
Theorem p2_p3_childEnds (t : Tree) :
  let branchLen := trunkHeight t * branchRatio t in
  let al := branchAngle t / 2 - treeIncline t in
  let ar := branchAngle t / 2 + treeIncline t in
  p2 t = translate (p1 t) (Point.new (- sin al * branchLen) (- cos al * branchLen)) ∧
  p3 t = translate (p1 t) (Point.new (sin ar * branchLen) (- cos ar * branchLen)) ∧
  p2 t = leftChildEnd t ∧
  p3 t = rightChildEnd t.
Proof.
  intros branchLen al ar. subst branchLen al ar.
  unfold leftChildEnd, rightChildEnd, trunkEnd, p2, p3, p1, p0.
  unfold translate, scale, rotate; simpl.
  repeat split; f_equal; ring.
Qed.

(** The trunk points straight up when the tree does not lean. *)
Lemma p1_upright (t : Tree) :
  treeIncline t = 0 →
  p1 t = Point.new (Point.x (root t)) (Point.y (root t) - trunkHeight t).
Proof.
  intros E. unfold p1, p0. rewrite E.
  replace (0 - PI / 2) with (- (PI / 2)) by ring.
  rewrite cos_neg, sin_neg, cos_PI2, sin_PI2. f_equal; ring.
Qed.

(** ** The children *)

(** C7: the two trees a [work()] plans keep the parent's ratio and angle,
    have the parent's trunk length times the ratio, start at the parent's
    [p1], lean by the parent's incline minus and plus half the angle, and
    are appended at the tail of the queue, left first. *)
Theorem work_children (d : GardenDirector) (ctx : Canvas) (tree : Tree) (rest : list Tree) :
  trees d = tree :: rest →
  ¬ trunkHeight tree < maxTrunkHeight d →
  ∃ left right : Tree,
    nextTrees tree = [left; right] ∧
    trees (fst (work (d, ctx))) = rest ++ [left; right] ∧
    branchRatio left = branchRatio tree ∧ branchRatio right = branchRatio tree ∧
    branchAngle left = branchAngle tree ∧ branchAngle right = branchAngle tree ∧
    trunkHeight left = trunkHeight tree * branchRatio tree ∧
    trunkHeight right = trunkHeight tree * branchRatio tree ∧
    root left = p1 tree ∧ root right = p1 tree ∧
    treeIncline left = treeIncline tree - branchAngle tree / 2 ∧
    treeIncline right = treeIncline tree + branchAngle tree / 2.
Proof.
  intros E Hge. rewrite (work_draw _ _ _ _ E Hge). simpl.
  eexists _, _. repeat split.
Qed.

Lemma work_children_witness :
  trees scenario_director = scenario_root :: []
  ∧ ¬ trunkHeight scenario_root < maxTrunkHeight scenario_director
  ∧ ∃ left right : Tree,
      trees (fst (work (scenario_director, canvas scenario_page))) = [left; right]
      ∧ trunkHeight left = 100 * 0.7 ∧ trunkHeight right = 100 * 0.7
      ∧ root left = p1 scenario_root ∧ root right = p1 scenario_root
      ∧ treeIncline left = 0 - PI / 6 / 2 ∧ treeIncline right = 0 + PI / 6 / 2.
Proof.
  assert (H1 : trees scenario_director = scenario_root :: []) by reflexivity.
  assert (H2 : ¬ trunkHeight scenario_root < maxTrunkHeight scenario_director)
    by (simpl; lra).
  split; [exact H1 | split; [exact H2 |]].
  destruct (work_children scenario_director (canvas scenario_page)
              scenario_root [] H1 H2)
    as (left & right & _ & Hq & _ & _ & _ & _ & Hl & Hr & Hol & Hor & Hil & Hir).
  exists left, right. repeat split; assumption.
Defined.

(** ** What a run paints and queues *)

Lemma drawTree_painted t c : painted (drawTree t c) = painted c ++ strokesOf t.
Proof.
  unfold drawTree, strokesOf; simpl.
  rewrite !Point_eta, <- !app_assoc. reflexivity.
Qed.

Lemma drawTrees_app l1 l2 c : drawTrees (l1 ++ l2) c = drawTrees l2 (drawTrees l1 c).
Proof. apply fold_left_app. Qed.

Lemma drawTrees_painted l c :
  painted (drawTrees l c) = painted c ++ flat_map strokesOf l.
Proof.
  revert c. induction l as [|t l IH]; intros c; simpl.
  - by rewrite app_nil_r.
  - unfold drawTrees in *. simpl. rewrite IH, drawTree_painted, <- app_assoc.
    reflexivity.
Qed.

Lemma pushes_add n m s : pushes (n + m) s = (pushes n s + pushes m (steps n s))%nat.
Proof.
  revert s. induction n as [|n IH]; intros s; simpl; [done|].
  rewrite IH. lia.
Qed.

Lemma nextTrees_length t : length (nextTrees t) = 2%nat.
Proof. reflexivity. Qed.

Lemma flat_map_nextTrees_length l :
  length (flat_map nextTrees l) = (2 * length l)%nat.
Proof. induction l as [|t l IH]; simpl; [done | lia]. Qed.

(** A front segment of trees that all pass the size test is drawn tree by
    tree, and their children queue up behind in the same order. *)
Lemma steps_draw_all l : ∀ q m i c,
  Forall (λ t, ¬ trunkHeight t < m) l →
  steps (length l) (new_GardenDirector (l ++ q) m i, c)
  = (new_GardenDirector (q ++ flat_map nextTrees l) m i, drawTrees l c)
  ∧ pushes (length l) (new_GardenDirector (l ++ q) m i, c) = (2 * length l)%nat.
Proof.
  induction l as [|t l IH]; intros q m i c Hall.
  - simpl. by rewrite app_nil_r.
  - apply Forall_cons in Hall as [Ht Hl].
    assert (Hw : work (new_GardenDirector ((t :: l) ++ q) m i, c)
                 = (new_GardenDirector (l ++ (q ++ nextTrees t)) m i, drawTree t c)).
    { rewrite (work_draw _ _ t (l ++ q)); [|done|done].
      unfold set_trees; simpl. by rewrite <- app_assoc. }
    cbn [length steps pushes]. unfold pushed. rewrite Hw.
    destruct (IH (q ++ nextTrees t) m i (drawTree t c) Hl) as [-> ->].
    split.
    + by rewrite <- app_assoc.
    + cbn [fst trees tail app]. rewrite !length_app, nextTrees_length. lia.
Qed.

(** A front segment of trees that all fail the size test is dropped: the
    canvas is untouched and nothing is pushed. *)
Lemma steps_discard_all l : ∀ q m i c,
  Forall (λ t, trunkHeight t < m) l →
  steps (length l) (new_GardenDirector (l ++ q) m i, c)
  = (new_GardenDirector q m i, c)
  ∧ pushes (length l) (new_GardenDirector (l ++ q) m i, c) = 0%nat.
Proof.
  induction l as [|t l IH]; intros q m i c Hall.
  - done.
  - apply Forall_cons in Hall as [Ht Hl].
    assert (Hw : work (new_GardenDirector ((t :: l) ++ q) m i, c)
                 = (new_GardenDirector (l ++ q) m i, c)).
    { by rewrite (work_discard _ _ t (l ++ q)). }
    cbn [length steps pushes]. unfold pushed. rewrite Hw.
    destruct (IH q m i c Hl) as [-> ->].
    split; [done|]. cbn [fst trees tail app]. lia.
Qed.

(** Once the queue is empty nothing changes any more. *)
Lemma steps_idle n d c : trees d = [] → steps n (d, c) = (d, c).
Proof.
  intros E. induction n as [|n IH]; cbn [steps]; [done|].
  by rewrite (work_idle _ _ E).
Qed.

(** ** Generations *)

Lemma generation_length k t : length (generation k t) = (2 ^ k)%nat.
Proof.
  induction k as [|k IH]; [done|].
  cbn [generation]. rewrite flat_map_nextTrees_length, IH. simpl. lia.
Qed.

Lemma generations_S k t : generations (S k) t = generations k t ++ generation k t.
Proof.
  unfold generations. rewrite seq_S, flat_map_app. simpl. by rewrite app_nil_r.
Qed.

Lemma generations_length k t : length (generations k t) = (2 ^ k - 1)%nat.
Proof.
  induction k as [|k IH]; [done|].
  rewrite generations_S, length_app, IH, generation_length.
  assert (2 ^ k ≠ 0)%nat by (apply Nat.pow_nonzero; lia). simpl. lia.
Qed.

(** Every tree of generation [k] has the root's ratio and angle, and the
    root's trunk length times the ratio [k] times over. *)
Lemma generation_fields k t :
  Forall (λ u, trunkHeight u = trunkHeight t * branchRatio t ^ k
               ∧ branchRatio u = branchRatio t
               ∧ branchAngle u = branchAngle t)
         (generation k t).
Proof.
  induction k as [|k IH].
  - repeat constructor. simpl. ring.
  - cbn [generation]. induction IH as [|u l (Hh & Hr & Ha) _ IHl]; [constructor|].
    simpl. repeat constructor; simpl; try done; rewrite Hh, Hr; ring.
Qed.

Lemma pow_ratio_antitone r m n :
  0 <= r <= 1 → (m ≤ n)%nat → r ^ n <= r ^ m.
Proof.
  intros Hr Hmn. induction Hmn as [|n _ IH]; [lra|].
  assert (0 <= r ^ n) by (apply pow_le; lra).
  simpl. nra.
Qed.

(** ** The growth of one tree, from the root to the empty queue *)

Section Growth.

Variable root : Tree.
Hypothesis Hheight : 0 < trunkHeight root.
Hypothesis Hratio : 0 < branchRatio root < 1.

(** The director's timer id plays no part in [work()]. *)
Variable timer : option nat.

Local Abbreviation threshold := (trunkHeight root * branchRatio root ^ 7).
Local Abbreviation director q := (new_GardenDirector q threshold timer).

Lemma generation_not_below k :
  (k ≤ 7)%nat → Forall (λ t, ¬ trunkHeight t < threshold) (generation k root).
Proof.
  intros Hk. eapply Forall_impl; [apply generation_fields|].
  intros t (Hh & _). cbv beta in Hh. rewrite Hh.
  assert (branchRatio root ^ 7 <= branchRatio root ^ k)
    by (apply pow_ratio_antitone; [lra | lia]).
  nra.
Qed.

Lemma generation_7_at_threshold :
  Forall (λ t, trunkHeight t = threshold) (generation 7 root).
Proof.
  eapply Forall_impl; [apply generation_fields|]. by intros t (Hh & _).
Qed.

Lemma generation_8_below :
  Forall (λ t, trunkHeight t < threshold) (generation 8 root).
Proof.
  eapply Forall_impl; [apply generation_fields|].
  intros t (Hh & _). cbv beta in Hh. rewrite Hh.
  assert (0 < branchRatio root ^ 7) by (apply pow_lt; lra).
  rewrite <- (tech_pow_Rmult _ 7).
  assert (0 < trunkHeight root * branchRatio root ^ 7) by (apply Rmult_lt_0_compat; lra).
  nra.
Qed.

(** One generation at a time: [2 ^ k] calls draw generation [k] and leave
    generation [k + 1] in the queue. *)
Lemma grow_generation k c :
  (k ≤ 7)%nat →
  steps (2 ^ k) (director (generation k root), c)
  = (director (generation (S k) root), drawTrees (generation k root) c)
  ∧ pushes (2 ^ k) (director (generation k root), c) = (2 * 2 ^ k)%nat.
Proof.
  intros Hk.
  pose proof (steps_draw_all (generation k root) [] threshold timer c
                (generation_not_below k Hk)) as H.
  rewrite app_nil_r, generation_length in H. exact H.
Qed.

Lemma grow_to_generation k c :
  (k ≤ 8)%nat →
  steps (2 ^ k - 1) (director [root], c)
  = (director (generation k root), drawTrees (generations k root) c)
  ∧ pushes (2 ^ k - 1) (director [root], c) = (2 ^ S k - 2)%nat.
Proof.
  induction k as [|k IH]; intros Hk; [done|].
  destruct IH as [IHs IHp]; [lia|].
  destruct (grow_generation k (drawTrees (generations k root) c)) as [Hs Hp]; [lia|].
  assert (2 ^ k ≠ 0)%nat by (apply Nat.pow_nonzero; lia).
  replace (2 ^ S k - 1)%nat with ((2 ^ k - 1) + 2 ^ k)%nat by (simpl; lia).
  rewrite steps_add, pushes_add, IHs, IHp, Hs, Hp, generations_S, drawTrees_app.
  split; [done|]. simpl. lia.
Qed.

(** The whole run: [2 ^ 9 - 1] calls draw generations 0 to 7, drop
    generation 8 and leave the queue empty. *)
Lemma grow_complete c :
  steps (2 ^ 9 - 1) (director [root], c)
  = (director [], drawTrees (generations 8 root) c)
  ∧ pushes (2 ^ 9 - 1) (director [root], c) = (2 ^ 9 - 2)%nat.
Proof.
  destruct (grow_to_generation 8 c) as [Hs Hp]; [lia|].
  pose proof (steps_discard_all (generation 8 root) [] threshold timer
                (drawTrees (generations 8 root) c) generation_8_below) as [Hd Hq].
  rewrite app_nil_r, generation_length in Hd, Hq.
  replace (2 ^ 9 - 1)%nat with ((2 ^ 8 - 1) + 2 ^ 8)%nat by (simpl; lia).
  rewrite steps_add, pushes_add, Hs, Hp, Hd, Hq. split; [done|]. simpl; lia.
Qed.

(** Whenever the queue is found empty, the run has reached that state. *)
Lemma grow_final n c d c' :
  steps n (director [root], c) = (d, c') →
  trees d = [] →
  d = director [] ∧ c' = drawTrees (generations 8 root) c.
Proof.
  intros Hn Hempty.
  pose proof (steps_add n (2 ^ 9 - 1) (director [root], c)) as H1.
  pose proof (steps_add (2 ^ 9 - 1) n (director [root], c)) as H2.
  rewrite Nat.add_comm in H2. rewrite H2 in H1. clear H2.
  destruct (grow_complete c) as [Hc _].
  rewrite Hc, Hn, !steps_idle in H1 by done.
  apply pair_equal_spec in H1 as [Hd Hc']. by split.
Qed.

Lemma frontier_next k : (k ≤ 7)%nat → frontier root k (2 ^ k) = frontier root (S k) 0.
Proof.
  intros Hk. unfold frontier.
  rewrite drop_ge, take_ge by (rewrite generation_length; lia).
  rewrite decide_True by done. cbn [app take drop flat_map generation].
  by destruct (decide _); rewrite app_nil_r.
Qed.

Lemma frontier_end : frontier root 8 (2 ^ 8) = [].
Proof.
  unfold frontier. rewrite drop_ge by (rewrite generation_length; lia).
  by rewrite decide_False by lia.
Qed.

Lemma frontier_bfs k j : bfs_queue root (frontier root k j).
Proof.
  exists k, j. unfold frontier. destruct (decide _); [by left | right].
  by rewrite app_nil_r.
Qed.

Lemma work_frontier_within d c k j :
  maxTrunkHeight d = threshold →
  (k ≤ 8)%nat → (j < 2 ^ k)%nat →
  trees d = frontier root k j →
  trees (fst (work (d, c))) = frontier root k (S j).
Proof.
  intros Hm Hk Hj Hq.
  destruct (lookup_lt_is_Some_2 (generation k root) j) as [t Ht];
    [by rewrite generation_length|].
  unfold frontier in *. rewrite (drop_S _ _ _ Ht) in Hq.
  destruct (decide (k ≤ 7)%nat) as [Hk7|Hk7].
  - pose proof (Forall_lookup_1 _ _ _ _ (generation_not_below k Hk7) Ht) as Hge.
    cbn beta in Hge. rewrite <- Hm in Hge.
    rewrite (work_draw _ _ _ _ Hq Hge). cbn [fst set_trees trees].
    rewrite (take_S_r _ _ _ Ht), flat_map_app. cbn [flat_map].
    by rewrite app_nil_r, app_assoc.
  - assert (k = 8)%nat as -> by lia.
    pose proof (Forall_lookup_1 _ _ _ _ generation_8_below Ht) as Hlt.
    cbn beta in Hlt. rewrite <- Hm in Hlt.
    by rewrite (work_discard _ _ _ _ Hq Hlt).
Qed.

Lemma work_frontier d c k j :
  maxTrunkHeight d = threshold →
  (k ≤ 8)%nat → (j ≤ 2 ^ k)%nat →
  trees d = frontier root k j →
  ∃ k' j', (k' ≤ 8)%nat ∧ (j' ≤ 2 ^ k')%nat
           ∧ trees (fst (work (d, c))) = frontier root k' j'.
Proof.
  intros Hm Hk Hj Hq.
  destruct (decide (j < 2 ^ k)%nat) as [Hlt|Hge].
  { exists k, (S j). split; [done|]. split; [lia|]. by apply work_frontier_within. }
  assert (j = 2 ^ k)%nat as -> by lia.
  destruct (decide (k ≤ 7)%nat) as [Hk7|Hk7].
  - rewrite frontier_next in Hq by done.
    assert (0 < 2 ^ S k)%nat by (apply Nat.neq_0_lt_0, Nat.pow_nonzero; lia).
    exists (S k), 1%nat. split; [lia|]. split; [lia|].
    apply work_frontier_within; [done | lia | done | done].
  - assert (k = 8)%nat as -> by lia.
    exists 8%nat, (2 ^ 8)%nat. split; [done|]. split; [done|].
    rewrite frontier_end in Hq. rewrite (work_idle _ _ Hq). cbn [fst].
    by rewrite Hq, frontier_end.
Qed.

(** Every state of the run has its queue in breadth-first order. *)
Lemma steps_bfs_queue n c :
  bfs_queue root (trees (fst (steps n (director [root], c)))).
Proof.
  assert (Hgen : ∀ n s,
    maxTrunkHeight (fst s) = threshold →
    (∃ k j, (k ≤ 8)%nat ∧ (j ≤ 2 ^ k)%nat ∧ trees (fst s) = frontier root k j) →
    ∃ k j, trees (fst (steps n s)) = frontier root k j).
  { clear n c. induction n as [|n IH]; intros [d c] Hm (k & j & Hk & Hj & Hq).
    - eauto.
    - cbn [steps]. apply IH.
      + by rewrite work_maxTrunkHeight.
      + by apply (work_frontier d c k j). }
  destruct (Hgen n (director [root], c)) as (k & j & ->).
  - done.
  - exists 0%nat, 0%nat. split; [lia|]. split; [simpl; lia|]. done.
  - apply frontier_bfs.
Qed.

End Growth.

Lemma flat_map_strokesOf_length l :
  length (flat_map strokesOf l) = (3 * length l)%nat.
Proof. induction l as [|t l IH]; simpl; [done | lia]. Qed.

(** The two range facts about a concrete root tree: positive trunk height,
    ratio strictly between 0 and 1. *)
Ltac in_range root :=
  assert (Hh : 0 < trunkHeight root) by (simpl; lra);
  assert (Hr : 0 < branchRatio root < 1) by (simpl; lra).

(** ** The size test *)

(** C9: the cut-off is a strict [<].  A tree whose trunk height equals the
    threshold is drawn, its three strokes painted after the old ones, and
    its two children are appended to the queue.  In exact arithmetic, for a
    root of positive height and a ratio in (0,1), the [2 ^ 7] trees of
    generation 7 are exactly at the threshold, so generations 0 to 7 are
    drawn ([2 ^ 8 - 1] trees) and the [2 ^ 8] trees of generation 8, which
    generation 7 queued, are what gets discarded. *)
Theorem threshold_is_strict (root : Tree) (timer : option nat) (c : Canvas) :
  0 < trunkHeight root →
  0 < branchRatio root < 1 →
  let m := trunkHeight root * branchRatio root ^ 7 in
  (∀ d ctx tree rest,
      trees d = tree :: rest →
      trunkHeight tree = maxTrunkHeight d →
      work (d, ctx) = (set_trees (rest ++ nextTrees tree) d, drawTree tree ctx)
      ∧ trees (fst (work (d, ctx)))
        = rest ++ [ new_Tree (p1 tree) (trunkHeight tree * branchRatio tree)
                             (branchRatio tree) (branchAngle tree)
                             (treeIncline tree - branchAngle tree / 2);
                    new_Tree (p1 tree) (trunkHeight tree * branchRatio tree)
                             (branchRatio tree) (branchAngle tree)
                             (treeIncline tree + branchAngle tree / 2) ]
      ∧ painted (snd (work (d, ctx)))
        = painted ctx ++ [ new_Stroke "#333344" (p0 tree) (p1 tree);
                           new_Stroke "#333344" (p1 tree) (p2 tree);
                           new_Stroke "#AA3340" (p1 tree) (p3 tree) ])
  ∧ Forall (λ t, trunkHeight t = m) (generation 7 root)
  ∧ Forall (λ t, trunkHeight t < m) (generation 8 root)
  ∧ steps (2 ^ 8 - 1) (new_GardenDirector [root] m timer, c)
    = (new_GardenDirector (generation 8 root) m timer,
       drawTrees (generations 8 root) c)
  ∧ steps (2 ^ 9 - 1) (new_GardenDirector [root] m timer, c)
    = (new_GardenDirector [] m timer, drawTrees (generations 8 root) c)
  ∧ length (generation 7 root) = (2 ^ 7)%nat
  ∧ length (generation 8 root) = (2 ^ 8)%nat
  ∧ length (generations 8 root) = (2 ^ 8 - 1)%nat
  ∧ painted (snd (steps (2 ^ 9 - 1) (new_GardenDirector [root] m timer, c)))
    = painted c ++ flat_map strokesOf (generations 8 root)
  ∧ length (flat_map strokesOf (generations 8 root)) = (3 * (2 ^ 8 - 1))%nat.
Proof.
  intros Hh Hr m. subst m.
  split.
  { intros d ctx tree rest E Heq.
    assert (Hw : work (d, ctx)
                 = (set_trees (rest ++ nextTrees tree) d, drawTree tree ctx))
      by (apply work_draw; [done | lra]).
    split; [exact Hw|]. rewrite Hw. split; [reflexivity|].
    apply drawTree_painted. }
  split; [by apply generation_7_at_threshold|].
  split; [by apply generation_8_below|].
  split; [by apply (grow_to_generation root Hh Hr timer 8 c)|].
  destruct (grow_complete root Hh Hr timer c) as [Hrun _].
  split; [exact Hrun|].
  split; [apply generation_length|].
  split; [apply generation_length|].
  split; [apply generations_length|].
  split.
  - rewrite Hrun. apply drawTrees_painted.
  - by rewrite flat_map_strokesOf_length, generations_length.
Qed.

Lemma threshold_is_strict_witness :
  0 < trunkHeight scenario_root
  ∧ 0 < branchRatio scenario_root < 1
  ∧ steps (2 ^ 9 - 1) (scenario_director, canvas scenario_page)
    = (new_GardenDirector [] (100 * 0.7 ^ 7) None,
       drawTrees (generations 8 scenario_root) (canvas scenario_page)).
Proof.
  in_range scenario_root.
  split; [exact Hh | split; [exact Hr |]].
  exact (proj1 (proj2 (proj2 (proj2 (proj2
    (threshold_is_strict scenario_root None (canvas scenario_page) Hh Hr)))))).
Defined.

(** ** The scenario: trunk 100, ratio 0.7, angle 30 degrees, root (100, 100) *)

Lemma scenario_constructed :
  GardenDirector_new scenario_form (canvas scenario_page) = Some scenario_director.
Proof.
  rewrite GardenDirector_new_Some. unfold scenario_director, scenario_root. simpl.
  replace (200 / 2) with 100 by lra.
  replace (100 / 0.88 * 0.88) with 100 by lra.
  replace (PI * 30 / 180) with (PI / 6) by lra.
  reflexivity.
Qed.

Lemma generation_nonempty k t : ∃ u rest, generation k t = u :: rest.
Proof.
  pose proof (generation_length k t) as Hlen.
  assert (2 ^ k ≠ 0)%nat by (apply Nat.pow_nonzero; lia).
  destruct (generation k t) as [|u rest]; [simpl in Hlen; lia | eauto].
Qed.

(** C1 as stated fails: the run does not stop at generation 6, and the
    trees of generation 7 are not discarded. *)
Lemma scenario_generation_7_not_discarded :
  ¬ (∃ n d c,
        steps n (scenario_director, canvas scenario_page) = (d, c)
        ∧ trees d = []
        ∧ painted c = flat_map strokesOf (generations 7 scenario_root))
  ∧ ¬ (∀ t rest c,
        In t (generation 7 scenario_root) →
        work (set_trees (t :: rest) scenario_director, c)
        = (set_trees rest scenario_director, c)).
Proof.
  in_range scenario_root.
  split.
  - intros (n & d & c & Hn & Hempty & Hpainted).
    destruct (grow_final scenario_root Hh Hr None n _ d c Hn Hempty) as [_ ->].
    rewrite drawTrees_painted in Hpainted. apply (f_equal length) in Hpainted.
    rewrite length_app, !flat_map_strokesOf_length, !generations_length in Hpainted.
    simpl in Hpainted. lia.
  - intros Hall.
    destruct (generation_nonempty 7 scenario_root) as (t & l & E).
    pose proof (generation_7_at_threshold scenario_root) as H7.
    rewrite E in H7. apply Forall_cons in H7 as [Ht _].
    specialize (Hall t [] (canvas scenario_page)).
    rewrite E in Hall. specialize (Hall (or_introl eq_refl)).
    rewrite (work_draw _ _ t []) in Hall; [|done|simpl in *; lra].
    apply pair_equal_spec in Hall as [Hq _].
    apply (f_equal trees) in Hq. discriminate Hq.
Qed.

(** C1, amended: the threshold is [100 * 0.7 ^ 7], about 8.24; the run draws
    exactly the trees of generations 0 to 7, in that order, and every tree
    of generation 8 is discarded with nothing drawn and nothing queued. *)
Theorem scenario_draws_generations_0_to_7 :
  GardenDirector_new scenario_form (canvas scenario_page) = Some scenario_director
  ∧ maxTrunkHeight scenario_director = 100 * 0.7 ^ 7
  ∧ 8.23 < maxTrunkHeight scenario_director < 8.24
  ∧ steps (2 ^ 9 - 1) (scenario_director, canvas scenario_page)
    = (set_trees [] scenario_director,
       drawTrees (generations 8 scenario_root) (canvas scenario_page))
  ∧ (∀ n d c,
        steps n (scenario_director, canvas scenario_page) = (d, c) →
        trees d = [] →
        painted c = flat_map strokesOf (generations 8 scenario_root))
  ∧ Forall (λ t, ∀ rest c,
                work (set_trees (t :: rest) scenario_director, c)
                = (set_trees rest scenario_director, c))
           (generation 8 scenario_root).
Proof.
  in_range scenario_root.
  split; [apply scenario_constructed|].
  split; [done|].
  split; [simpl; lra|].
  split; [apply (grow_complete scenario_root Hh Hr None)|].
  split.
  - intros n d c Hn Hempty.
    destruct (grow_final scenario_root Hh Hr None n _ d c Hn Hempty) as [_ ->].
    by rewrite drawTrees_painted.
  - eapply Forall_impl; [apply (generation_8_below scenario_root Hh Hr)|].
    intros t Ht rest c. by rewrite (work_discard _ _ t rest).
Qed.

(** ** Termination and the number of trees queued *)

Lemma pushes_idle n d c : trees d = [] → pushes n (d, c) = 0%nat.
Proof.
  intros E. induction n as [|n IH]; cbn [pushes]; [done|].
  unfold pushed. rewrite (work_idle _ _ E), IH. cbn [fst]. rewrite E. done.
Qed.

Lemma work_keeps_tail s :
  (length (tail (trees (fst s))) ≤ length (trees (fst (work s))))%nat.
Proof.
  destruct s as [d ctx]. unfold work. cbn [fst].
  destruct (trees d) as [|t l] eqn:E; cbn [tail length]; [lia|].
  destruct (Rlt_dec _ _); cbn [fst planNextTrees set_trees trees].
  - done.
  - rewrite length_app. lia.
Qed.

(** Each call takes at most one tree off the queue. *)
Lemma steps_queue_length n s :
  (length (trees (fst s)) + pushes n s
   ≤ length (trees (fst (steps n s))) + n)%nat.
Proof.
  revert s. induction n as [|n IH]; intros s; cbn [pushes steps]; [lia|].
  specialize (IH (work s)). pose proof (work_keeps_tail s) as Hw. unfold pushed.
  destruct (trees (fst s)) as [|t l]; cbn [tail length] in *; lia.
Qed.

Section Termination.

Variable root : Tree.
Hypothesis Hheight : 0 < trunkHeight root.
Hypothesis Hratio : 0 < branchRatio root < 1.
Variable timer : option nat.
Variable c : Canvas.

Local Abbreviation s0 :=
  (new_GardenDirector [root] (trunkHeight root * branchRatio root ^ 7) timer, c).

Lemma pushes_total n : (2 ^ 9 - 1 ≤ n)%nat → pushes n s0 = (2 ^ 9 - 2)%nat.
Proof.
  intros Hn. destruct (grow_complete root Hheight Hratio timer c) as [Hs Hp].
  replace n with ((2 ^ 9 - 1) + (n - (2 ^ 9 - 1)))%nat by lia.
  rewrite pushes_add, Hs, Hp, pushes_idle by done. lia.
Qed.

Lemma pushes_bounded n : (pushes n s0 ≤ 2 ^ 9 - 2)%nat.
Proof.
  destruct (Nat.le_gt_cases (2 ^ 9 - 1) n) as [Hn|Hn].
  - by rewrite pushes_total.
  - rewrite <- (pushes_total (n + (2 ^ 9 - 1 - n))) by lia.
    rewrite pushes_add. lia.
Qed.

Lemma queue_empty_from n : (2 ^ 9 - 1 ≤ n)%nat → trees (fst (steps n s0)) = [].
Proof.
  intros Hn. destruct (grow_complete root Hheight Hratio timer c) as [Hs _].
  replace n with ((2 ^ 9 - 1) + (n - (2 ^ 9 - 1)))%nat by lia.
  by rewrite steps_add, Hs, steps_idle.
Qed.

Lemma queue_nonempty_before n : (n < 2 ^ 9 - 1)%nat → trees (fst (steps n s0)) ≠ [].
Proof.
  intros Hn Hempty.
  pose proof (steps_queue_length n s0) as Hlen. rewrite Hempty in Hlen.
  assert (Hidle : steps (2 ^ 9 - 1 - n) (steps n s0) = steps n s0).
  { destruct (steps n s0) as [d c']. by apply steps_idle. }
  pose proof (pushes_total (n + (2 ^ 9 - 1 - n))) as Hp.
  rewrite pushes_add in Hp.
  assert (Hz : pushes (2 ^ 9 - 1 - n) (steps n s0) = 0%nat).
  { destruct (steps n s0) as [d c']. by apply pushes_idle. }
  rewrite Hz in Hp. specialize (Hp ltac:(lia)).
  cbn [fst trees length] in Hlen. lia.
Qed.

End Termination.

(** C2 as stated fails: with ratio 1/2, more than [2 ^ 8 - 1] trees are
    placed on the queue. *)
Lemma halving_places_more_than_255 :
  ¬ (∀ n, (placed n (halving_director, canvas scenario_page) ≤ 2 ^ 8 - 1)%nat).
Proof.
  intros Hall. specialize (Hall (2 ^ 9 - 1)%nat).
  in_range halving_root.
  pose proof (pushes_total halving_root Hh Hr None (canvas scenario_page)
                (2 ^ 9 - 1) (le_n _)) as Hp.
  unfold placed in Hall.
  change (pushes (2 ^ 9 - 1) (halving_director, canvas scenario_page)
          = (2 ^ 9 - 2)%nat) in Hp.
  rewrite Hp in Hall. cbn [fst halving_director trees length] in Hall.
  simpl in Hall. lia.
Qed.

(** With numbers as reals, a positive trunk height and a ratio in (0,1):
    the queue is empty after [2 ^ 9 - 1] calls and not before, it stays
    empty, and the trees ever placed on it number [2 ^ 9 - 1] in all:
    generations 0 to 8, the last of them queued and then discarded.  (In
    binary64 the generation that is first below the threshold depends on
    rounding; see the growth over any arithmetic below.) *)
Theorem growth_terminates (root : Tree) (timer : option nat) (c : Canvas) :
  0 < trunkHeight root →
  0 < branchRatio root < 1 →
  let s0 := (new_GardenDirector [root] (trunkHeight root * branchRatio root ^ 7) timer, c) in
  (∀ n, (2 ^ 9 - 1 ≤ n)%nat → trees (fst (steps n s0)) = [])
  ∧ (∀ n, (n < 2 ^ 9 - 1)%nat → trees (fst (steps n s0)) ≠ [])
  ∧ (∀ n, (placed n s0 ≤ 2 ^ 9 - 1)%nat)
  ∧ placed (2 ^ 9 - 1) s0 = (2 ^ 9 - 1)%nat.
Proof.
  intros Hh Hr s0. repeat split.
  - intros n Hn. by apply queue_empty_from.
  - intros n Hn. by apply queue_nonempty_before.
  - intros n. unfold placed. pose proof (pushes_bounded root Hh Hr timer c n) as Hp.
    subst s0. cbn [fst trees length]. simpl in Hp |- *. lia.
  - unfold placed. pose proof (pushes_total root Hh Hr timer c _ (le_n _)) as Hp.
    subst s0. rewrite Hp. cbn [fst trees length]. simpl. lia.
Qed.

(** ** The threshold *)

(** C4: the threshold is set once, by the constructor, to the root's trunk
    height times its ratio to the 7th, and no [work()] changes it; whenever
    the tree taken off the queue is below it, the tree is dropped: the
    queue is what [shift()] left and the canvas is as it was. *)
Theorem threshold_fixed_and_discards
    (root : Tree) (d0 : GardenDirector) (c0 : Canvas) (n : nat)
    (tree : Tree) (rest : list Tree) :
  GardenDirector_of [root] = Some d0 →
  trees (fst (steps n (d0, c0))) = tree :: rest →
  trunkHeight tree < trunkHeight root * branchRatio root ^ 7 →
  maxTrunkHeight d0 = trunkHeight root * branchRatio root ^ 7
  ∧ maxTrunkHeight (fst (steps n (d0, c0))) = maxTrunkHeight d0
  ∧ work (steps n (d0, c0))
    = (set_trees rest (fst (steps n (d0, c0))), snd (steps n (d0, c0))).
Proof.
  intros Hnew Hq Hlt. rewrite GardenDirector_of_root in Hnew.
  injection Hnew as <-. cbn [maxTrunkHeight].
  pose proof (steps_maxTrunkHeight n
    (new_GardenDirector [root] (trunkHeight root * branchRatio root ^ 7) None, c0))
    as Hmax.
  cbn [fst maxTrunkHeight] in Hmax.
  destruct (steps n _) as [d c]. cbn [fst snd] in *.
  split; [done|]. split; [done|].
  apply (work_discard _ _ tree); [done|]. by rewrite Hmax.
Qed.

Lemma threshold_fixed_and_discards_witness :
  let s := steps (2 ^ 8 - 1) (scenario_director, canvas scenario_page) in
  let tree := hd scenario_root (generation 8 scenario_root) in
  let rest := tail (generation 8 scenario_root) in
  GardenDirector_of [scenario_root] = Some scenario_director
  ∧ trees (fst s) = tree :: rest
  ∧ trunkHeight tree < trunkHeight scenario_root * branchRatio scenario_root ^ 7
  ∧ maxTrunkHeight (fst s) = maxTrunkHeight scenario_director
  ∧ work s = (set_trees rest (fst s), snd s).
Proof.
  intros s tree rest.
  in_range scenario_root.
  assert (H1 : GardenDirector_of [scenario_root] = Some scenario_director)
    by reflexivity.
  assert (H2 : trees (fst s) = tree :: rest).
  { subst s tree rest.
    assert (Hg : steps (2 ^ 8 - 1) (scenario_director, canvas scenario_page)
                 = (set_trees (generation 8 scenario_root) scenario_director,
                    drawTrees (generations 8 scenario_root) (canvas scenario_page)))
      by exact (proj1 (grow_to_generation scenario_root Hh Hr None 8
                         (canvas scenario_page) (le_n 8))).
    rewrite Hg. cbn [fst trees set_trees].
    destruct (generation_nonempty 8 scenario_root) as (u & l & ->). reflexivity. }
  assert (H3 : trunkHeight tree
               < trunkHeight scenario_root * branchRatio scenario_root ^ 7).
  { subst tree.
    pose proof (generation_8_below scenario_root Hh Hr) as H8.
    destruct (generation_nonempty 8 scenario_root) as (u & l & E).
    rewrite E in H8 |- *. by apply Forall_cons in H8 as [Hu _]. }
  destruct (threshold_fixed_and_discards scenario_root scenario_director
              (canvas scenario_page) (2 ^ 8 - 1) tree rest H1 H2 H3)
    as (_ & Hmax & Hwork).
  repeat split; assumption.
Defined.

(** ** Order in the queue *)

Lemma nonincreasing_two_levels (L r : R) (older newer : list Tree) :
  L * r <= L →
  Forall (λ t, trunkHeight t = L) older →
  Forall (λ t, trunkHeight t = L * r) newer →
  nonincreasing (older ++ newer).
Proof.
  intros Hle Hold Hnew. unfold nonincreasing.
  induction Hold as [|t older Ht Hold IH]; simpl.
  - induction Hnew as [|u newer Hu Hnew IH]; [constructor|].
    constructor; [done|].
    eapply Forall_impl; [exact Hnew|]. intros v Hv. simpl in *. lra.
  - constructor; [done|]. rewrite Forall_app. split.
    + eapply Forall_impl; [exact Hold|]. intros v Hv. simpl in *. lra.
    + eapply Forall_impl; [exact Hnew|]. intros v Hv. simpl in *. lra.
Qed.

Lemma two_generations_nonincreasing root q :
  0 <= trunkHeight root →
  0 <= branchRatio root <= 1 →
  two_generations root q → nonincreasing q.
Proof.
  intros Hh Hr (k & older & newer & -> & Hold & Hnew).
  assert (0 <= trunkHeight root * branchRatio root ^ k)
    by (apply Rmult_le_pos; [lra | apply pow_le; lra]).
  apply (nonincreasing_two_levels
           (trunkHeight root * branchRatio root ^ k) (branchRatio root)).
  - nra.
  - eapply Forall_impl; [exact Hold|]. by intros t [Ht _].
  - eapply Forall_impl; [exact Hnew|]. intros t [Ht _]. rewrite Ht. simpl. ring.
Qed.

Lemma nextTrees_of_generation root k t :
  of_generation root k t → Forall (of_generation root (S k)) (nextTrees t).
Proof.
  intros [Hh Hr]. unfold of_generation.
  repeat constructor; simpl; try done; rewrite Hh, Hr; ring.
Qed.

(** Every [work()] keeps the queue within two consecutive generations,
    whatever the threshold is. *)
Lemma work_two_generations root s :
  two_generations root (trees (fst s)) →
  two_generations root (trees (fst (work s))).
Proof.
  destruct s as [d ctx]. cbn [fst]. intros (k & older & newer & E & Hold & Hnew).
  destruct older as [|t older].
  - destruct newer as [|t newer].
    + rewrite (work_idle _ _ E). cbn [fst]. rewrite E. by exists k, [], [].
    + apply Forall_cons in Hnew as [Ht Hnew]. simpl in E.
      destruct (Rlt_dec (trunkHeight t) (maxTrunkHeight d)) as [Hlt|Hge].
      * rewrite (work_discard _ _ _ _ E Hlt). exists (S k), newer, []. simpl.
        by rewrite app_nil_r.
      * rewrite (work_draw _ _ _ _ E Hge). exists (S k), newer, (nextTrees t).
        simpl. repeat split; [done|]. by apply nextTrees_of_generation.
  - apply Forall_cons in Hold as [Ht Hold]. simpl in E.
    destruct (Rlt_dec (trunkHeight t) (maxTrunkHeight d)) as [Hlt|Hge].
    + rewrite (work_discard _ _ _ _ E Hlt). by exists k, older, newer.
    + rewrite (work_draw _ _ _ _ E Hge). exists k, older, (newer ++ nextTrees t).
      simpl. rewrite app_assoc. repeat split; [done|].
      rewrite Forall_app. split; [done|]. by apply nextTrees_of_generation.
Qed.

Lemma steps_two_generations root n s :
  two_generations root (trees (fst s)) →
  two_generations root (trees (fst (steps n s))).
Proof.
  revert s. induction n as [|n IH]; intros s Hs; cbn [steps]; [done|].
  by apply IH, work_two_generations.
Qed.

(** C10: in every state that repeated [work()] reaches from the queue
    holding only the root, the queue is in breadth-first order and holds
    trees of at most two consecutive generations, the older in front, so
    trunk heights never grow from front to back; one more [work()] keeps it
    so. *)
Theorem queue_nonincreasing (root : Tree) (timer : option nat) (c : Canvas) (n : nat) :
  0 < trunkHeight root →
  0 < branchRatio root < 1 →
  let s := steps n (new_GardenDirector [root]
                      (trunkHeight root * branchRatio root ^ 7) timer, c) in
  (bfs_queue root (trees (fst s))
   ∧ two_generations root (trees (fst s))
   ∧ nonincreasing (trees (fst s)))
  ∧ (bfs_queue root (trees (fst (work s)))
     ∧ two_generations root (trees (fst (work s)))
     ∧ nonincreasing (trees (fst (work s)))).
Proof.
  intros Hh Hr s.
  assert (H0 : two_generations root (trees (fst s))).
  { apply steps_two_generations. exists 0%nat, [root], []. cbn [fst trees].
    repeat split; [|done]. repeat constructor. simpl. ring. }
  assert (H1 : two_generations root (trees (fst (work s))))
    by by apply work_two_generations.
  split; (split; [|split; [done|]]).
  - by apply steps_bfs_queue.
  - eapply two_generations_nonincreasing; eauto; lra.
  - subst s. rewrite <- steps_S_r. by apply steps_bfs_queue.
  - eapply two_generations_nonincreasing; eauto; lra.
Qed.

Lemma queue_nonincreasing_witness :
  0 < trunkHeight scenario_root
  ∧ 0 < branchRatio scenario_root < 1
  ∧ nonincreasing
      (trees (fst (steps 300 (scenario_director, canvas scenario_page)))).
Proof.
  in_range scenario_root.
  split; [exact Hh | split; [exact Hr |]].
  exact (proj2 (proj2 (proj1 (queue_nonincreasing scenario_root None
                                (canvas scenario_page) 300 Hh Hr)))).
Defined.

(** ** [start()], [stop()] and the timers *)

Lemma run_intervals this w :
  intervals (run this w) = <[nextTimer w := new_Interval this 10]> (intervals w).
Proof. reflexivity. Qed.

Lemma run_nextTimer this w : nextTimer (run this w) = S (nextTimer w).
Proof. reflexivity. Qed.

Lemma run_heap this w :
  heap (run this w) = alter (set_timerId (Some (nextTimer w))) this (heap w).
Proof. reflexivity. Qed.

Lemma run_gardenDirector this w : gardenDirector (run this w) = gardenDirector w.
Proof. reflexivity. Qed.

Lemma run_canvas this w : canvas (run this w) = canvas w.
Proof. reflexivity. Qed.

Lemma start_running w this :
  gardenDirector w = Some this → start w = Some (run this w).
Proof. intros E. unfold start. rewrite E. simpl. by rewrite E. Qed.

Lemma start_fresh w :
  gardenDirector w = None →
  ∃ d, GardenDirector_new (form w) (canvas w) = Some d
       ∧ start w
         = Some (run (fresh (dom (heap w)))
                     (w |> set_heap (<[fresh (dom (heap w)) := d]> (heap w))
                        |> set_gardenDirector (Some (fresh (dom (heap w)))))).
Proof.
  intros E. eexists. split; [apply GardenDirector_new_Some|].
  unfold start. rewrite E, GardenDirector_new_Some. reflexivity.
Qed.

(** [start()] never throws. *)
Lemma start_total w : is_Some (start w).
Proof.
  destruct (gardenDirector w) as [this|] eqn:E.
  - rewrite (start_running _ _ E). eauto.
  - destruct (start_fresh _ E) as (d & _ & ->). eauto.
Qed.

Lemma page_start f wd ht :
  start (page f wd ht)
  = Some (new_Window f
            (new_Canvas wd ht "#000000" None [] [])
            {[ 0%nat :=
                 new_GardenDirector
                   [ new_Tree (Point.new (wd / 2) (ht * 0.88))
                              (trunk_height f) (branch_ratio f)
                              (PI * branch_angle f / 180) 0 ]
                   (trunk_height f * branch_ratio f ^ 7) (Some 1%nat) ]}
            (Some 0%nat)
            {[ 1%nat := new_Interval 0 10 ]}
            2).
Proof. reflexivity. Qed.

Lemma page_start_start f wd ht :
  execs [Start; Start] (page f wd ht)
  = Some (new_Window f
            (new_Canvas wd ht "#000000" None [] [])
            {[ 0%nat :=
                 new_GardenDirector
                   [ new_Tree (Point.new (wd / 2) (ht * 0.88))
                              (trunk_height f) (branch_ratio f)
                              (PI * branch_angle f / 180) 0 ]
                   (trunk_height f * branch_ratio f ^ 7) (Some 2%nat) ]}
            (Some 0%nat)
            {[ 1%nat := new_Interval 0 10; 2%nat := new_Interval 0 10 ]}
            3).
Proof. reflexivity. Qed.

Lemma page_start_start_stop f wd ht :
  execs [Start; Start; Stop] (page f wd ht)
  = Some (new_Window f
            (new_Canvas wd ht "#000000" None [] [])
            {[ 0%nat :=
                 new_GardenDirector [] (trunk_height f * branch_ratio f ^ 7) None ]}
            None
            {[ 1%nat := new_Interval 0 10 ]}
            3).
Proof. reflexivity. Qed.

(** C3: [start()] on a page that is already running registers a second
    timer for the same director and overwrites the director's record of the
    first: two periodic invocations of [work()] are active, not one. *)
Theorem start_twice_two_timers (f : Form) (wd ht : R) :
  ∃ w1 w2 : Window,
    execs [Start] (page f wd ht) = Some w1
    ∧ start w1 = Some w2
    ∧ gardenDirector w1 = Some 0%nat
    ∧ gardenDirector w2 = Some 0%nat
    ∧ intervals w1 = {[ 1%nat := new_Interval 0 10 ]}
    ∧ intervals w2 = {[ 1%nat := new_Interval 0 10; 2%nat := new_Interval 0 10 ]}
    ∧ size (intervals w1) = 1%nat
    ∧ size (intervals w2) = 2%nat
    ∧ timerId <$> heap w1 !! 0%nat = Some (Some 1%nat)
    ∧ timerId <$> heap w2 !! 0%nat = Some (Some 2%nat)
    ∧ w2 ≠ w1.
Proof.
  eexists _, _.
  split; [exact (page_start f wd ht)|].
  split; [exact (page_start_start f wd ht)|].
  repeat split. intros E. apply (f_equal nextTimer) in E. discriminate E.
Qed.

(** C8: [stop()] after two [start()]s clears the canvas, the queue and the
    global, but cancels only the second timer: the first one stays
    registered and keeps calling [work()] on the retired director. *)
Theorem stop_after_two_starts_leaves_timer (f : Form) (wd ht : R) :
  ∃ w3 : Window,
    execs [Start; Start; Stop] (page f wd ht) = Some w3
    ∧ gardenDirector w3 = None
    ∧ blank (canvas w3)
    ∧ (∀ a d, heap w3 !! a = Some d → trees d = [] ∧ timerId d = None)
    ∧ intervals w3 = {[ 1%nat := new_Interval 0 10 ]}
    ∧ size (intervals w3) = 1%nat
    ∧ fire 1 w3 = w3
    ∧ stop w3 = w3.
Proof.
  eexists. split; [exact (page_start_start_stop f wd ht)|].
  split; [reflexivity|]. split; [reflexivity|]. split.
  - intros a d Hd. cbn [heap] in Hd.
    apply lookup_singleton_Some in Hd as [_ <-]. done.
  - repeat split.
Qed.

(** ** What [stop()] does guarantee *)

Lemma stop_gardenDirector w : gardenDirector (stop w) = None.
Proof. reflexivity. Qed.

(** A second [stop()] finds the global unset and changes nothing. *)
Lemma stop_idempotent w : stop (stop w) = stop w.
Proof. reflexivity. Qed.

Lemma stop_not_running w : gardenDirector w = None → stop w = w.
Proof. intros E. unfold stop. rewrite E. by destruct w; simplify_eq/=. Qed.

Lemma stop_running w this d :
  gardenDirector w = Some this →
  heap w !! this = Some d →
  gardenDirector (stop w) = None
  ∧ canvas (stop w) = clearRect_canvas (canvas w)
  ∧ heap (stop w) = <[this := set_trees [] (set_timerId None d)]> (heap w)
  ∧ intervals (stop w)
    = match timerId d with
      | Some id => delete id (intervals w)
      | None => intervals w
      end.
Proof.
  intros Eg Eh. unfold stop, retire. rewrite Eg, Eh.
  by destruct (timerId d).
Qed.

Lemma stop_nextTimer w : nextTimer (stop w) = nextTimer w.
Proof.
  unfold stop, retire. destruct (gardenDirector w) as [this|]; [|done].
  destruct (heap w !! this) as [d|]; [|done]. by destruct (timerId d).
Qed.

Lemma page_invariant_init f wd ht : page_invariant (page f wd ht).
Proof.
  split; [done|]. split; [|split].
  - intros a d Hd. cbn [page heap] in Hd. by rewrite lookup_empty in Hd.
  - done.
  - intros id [iv Hiv]. cbn [page intervals] in Hiv. by rewrite lookup_empty in Hiv.
Qed.

Lemma page_invariant_run this w :
  gardenDirector w = Some this →
  page_invariant w → page_invariant (run this w).
Proof.
  intros Eg (_ & Hothers & Hcur & Htimers).
  split; [by rewrite run_gardenDirector, Eg|].
  split; [|split].
  - intros a d. rewrite run_heap, run_gardenDirector, Eg. intros Hd Hne.
    rewrite lookup_alter_ne in Hd by congruence.
    apply (Hothers a d Hd). by rewrite Eg.
  - intros a. rewrite run_heap, run_gardenDirector, Eg. intros [= <-].
    rewrite lookup_alter_eq. destruct (Hcur this Eg) as [d ->]. eauto.
  - intros id. rewrite run_intervals, run_nextTimer. intros Hid.
    destruct (decide (id = nextTimer w)) as [->|Hne]; [lia|].
    rewrite lookup_insert_ne in Hid by done.
    specialize (Htimers id Hid). lia.
Qed.

Lemma page_invariant_start w w' :
  start w = Some w' → page_invariant w → page_invariant w'.
Proof.
  intros Hstart Hinv.
  destruct (gardenDirector w) as [this|] eqn:Eg.
  - rewrite (start_running _ _ Eg) in Hstart. injection Hstart as <-.
    by apply page_invariant_run.
  - destruct (start_fresh _ Eg) as (d & _ & Hs). rewrite Hs in Hstart.
    injection Hstart as <-. apply page_invariant_run; [done|].
    destruct Hinv as (_ & Hothers & _ & Htimers).
    set (a := fresh (dom (heap w))).
    assert (Hfresh : heap w !! a = None)
      by (apply not_elem_of_dom, is_fresh).
    split; [done|]. split; [|split; [|done]].
    + intros a' d' Hd' Hne. cbn in Hd', Hne.
      rewrite lookup_insert_ne in Hd' by congruence.
      apply (Hothers a' d' Hd'). by rewrite Eg.
    + intros a' [= <-]. cbn. rewrite lookup_insert_eq. eauto.
Qed.

Lemma page_invariant_stop w :
  page_invariant w → page_invariant (stop w) ∧ retired (stop w).
Proof.
  intros (Hblank & Hothers & Hcur & Htimers).
  destruct (gardenDirector w) as [this|] eqn:Eg.
  - destruct (Hcur this eq_refl) as [d Hd].
    destruct (stop_running w this d Eg Hd) as (Hg & Hc & Hh & Hi).
    assert (Hall : ∀ a d', heap (stop w) !! a = Some d' →
                           trees d' = [] ∧ timerId d' = None).
    { intros a d'. rewrite Hh. destruct (decide (a = this)) as [->|Hne].
      - rewrite lookup_insert_eq. by intros [= <-].
      - rewrite lookup_insert_ne by done. intros Hd'.
        apply (Hothers a d' Hd'). congruence. }
    assert (Hbl : blank (canvas (stop w))) by by rewrite Hc.
    split; [|done]. split; [done|]. split; [eauto|]. split; [by rewrite Hg|].
    intros id. rewrite Hi, stop_nextTimer.
    intros Hid. apply Htimers.
    destruct (timerId d) as [id'|]; [|done].
    destruct Hid as [iv Hiv]. apply lookup_delete_Some in Hiv as [_ Hiv]. eauto.
  - rewrite (stop_not_running _ Eg).
    assert (Hall : ∀ a d', heap w !! a = Some d' →
                           trees d' = [] ∧ timerId d' = None)
      by (intros a d' Hd'; by apply (Hothers a d' Hd')).
    split.
    + split; [by intros _; apply Hblank|].
      split; [intros a d' Hd' _; by apply (Hall a)|].
      split; [intros a Ha; congruence | done].
    + split; [done|]. split; [by apply Hblank | done].
Qed.

Lemma page_invariant_fire id w : page_invariant w → page_invariant (fire id w).
Proof.
  intros Hinv. unfold fire.
  destruct (intervals w !! id) as [iv|]; [|done].
  set (a := callback_this iv).
  destruct (heap w !! a) as [d|] eqn:Hd; [|done].
  destruct Hinv as (Hblank & Hothers & Hcur & Htimers).
  destruct (decide (gardenDirector w = Some a)) as [Eg|Hne].
  - destruct (work (d, canvas w)) as [d' c'].
    split; [intros Hnone; cbn in Hnone; congruence|]. split; [|split; [|done]].
    + intros a' d'' Hd' Hne'. cbn in Hd', Hne'.
      rewrite lookup_insert_ne in Hd' by congruence. by apply (Hothers a' d'').
    + intros a' Ha'. cbn in Ha' |- *.
      destruct (decide (a = a')) as [<-|Hne'].
      * rewrite lookup_insert_eq. eauto.
      * rewrite lookup_insert_ne by done. by apply Hcur.
  - destruct (Hothers a d Hd Hne) as [Hq Ht].
    rewrite (work_idle _ _ Hq).
    split; [done|]. split; [|split; [|done]].
    + intros a' d'' Hd' Hne'. cbn in Hd', Hne'.
      destruct (decide (a = a')) as [<-|Hne''].
      * rewrite lookup_insert_eq in Hd'. by injection Hd' as <-.
      * rewrite lookup_insert_ne in Hd' by done. by apply (Hothers a' d'').
    + intros a' Ha'. cbn in Ha' |- *.
      rewrite lookup_insert_ne by congruence. by apply Hcur.
Qed.

Lemma reachable_invariant f wd ht w :
  reachable (page f wd ht) w → page_invariant w.
Proof.
  induction 1 as [|w e w' _ IH Hexec]; [apply page_invariant_init|].
  destruct e as [| |id]; simpl in Hexec.
  - by apply (page_invariant_start w).
  - injection Hexec as <-. by apply page_invariant_stop.
  - injection Hexec as <-. by apply page_invariant_fire.
Qed.

(** On every reachable page, [stop()] unsets the global, blanks the canvas
    and leaves no director with trees to draw. *)
Lemma reachable_stop_retired f wd ht w :
  reachable (page f wd ht) w → retired (stop w).
Proof. intros Hw. by apply page_invariant_stop, (reachable_invariant f wd ht). Qed.

(** On every reachable page that is running, [start()] adds a timer. *)
Lemma reachable_start_adds_timer f wd ht w this :
  reachable (page f wd ht) w →
  gardenDirector w = Some this →
  ∃ w', start w = Some w'
        ∧ size (intervals w') = S (size (intervals w))
        ∧ w' ≠ w.
Proof.
  intros Hw Eg. apply reachable_invariant in Hw as (_ & _ & _ & Htimers).
  exists (run this w). split; [by apply start_running|].
  assert (Hnew : intervals w !! nextTimer w = None).
  { destruct (intervals w !! nextTimer w) as [iv|] eqn:E; [|done].
    specialize (Htimers (nextTimer w) ltac:(eauto)). lia. }
  split.
  - rewrite run_intervals. by apply map_size_insert_None.
  - intros E. apply (f_equal nextTimer) in E. rewrite run_nextTimer in E. lia.
Qed.

(** When the only registered timer is the one the current director
    remembers, [stop()] leaves no timer. *)
Lemma stop_single_timer w this d id iv :
  gardenDirector w = Some this →
  heap w !! this = Some d →
  timerId d = Some id →
  intervals w = {[ id := iv ]} →
  intervals (stop w) = ∅.
Proof.
  intros Eg Eh Et Ei.
  destruct (stop_running w this d Eg Eh) as (_ & _ & _ & ->).
  rewrite Et, Ei. apply delete_singleton_eq.
Qed.

(** ** The threshold on the page *)

(** No event touches the form, and every director ever constructed keeps
    the threshold its constructor computed from it. *)
Lemma reachable_threshold f wd ht w :
  reachable (page f wd ht) w →
  form w = f
  ∧ ∀ a d, heap w !! a = Some d →
           maxTrunkHeight d = trunk_height f * branch_ratio f ^ 7.
Proof.
  induction 1 as [|w e w' _ [Hf IH] Hexec].
  { split; [done|]. intros a d Hd. cbn [page heap] in Hd.
    by rewrite lookup_empty in Hd. }
  assert (Hrun : ∀ this w0,
    form w0 = f →
    (∀ a d, heap w0 !! a = Some d →
            maxTrunkHeight d = trunk_height f * branch_ratio f ^ 7) →
    form (run this w0) = f
    ∧ ∀ a d, heap (run this w0) !! a = Some d →
             maxTrunkHeight d = trunk_height f * branch_ratio f ^ 7).
  { intros this w0 Hf0 IH0. split; [done|]. intros a d. rewrite run_heap.
    destruct (decide (a = this)) as [->|Hne].
    - rewrite lookup_alter_eq. destruct (heap w0 !! this) as [d0|] eqn:E; [|done].
      cbn [fmap option_fmap option_map]. intros [= <-]. exact (IH0 this d0 E).
    - rewrite lookup_alter_ne by done. apply IH0. }
  destruct e as [| |id]; simpl in Hexec.
  - destruct (gardenDirector w) as [this|] eqn:Eg.
    + rewrite (start_running _ _ Eg) in Hexec. injection Hexec as <-.
      by apply Hrun.
    + destruct (start_fresh _ Eg) as (d & Hd & Hs). rewrite Hs in Hexec.
      injection Hexec as <-. apply Hrun; [done|].
      intros a d'. cbn [set_heap set_gardenDirector heap].
      destruct (decide (a = fresh (dom (heap w)))) as [->|Hne].
      * rewrite lookup_insert_eq. intros [= <-].
        rewrite GardenDirector_new_Some in Hd. injection Hd as <-.
        by rewrite Hf.
      * rewrite lookup_insert_ne by done. apply IH.
  - injection Hexec as <-. unfold stop, retire.
    destruct (gardenDirector w) as [this|]; [|done].
    destruct (heap w !! this) as [d|] eqn:Hd; [|done].
    split; [by destruct (timerId d)|]. intros a d'.
    assert (Hh : ∀ w1, heap w1 = heap w →
      heap (set_gardenDirector None
              (w1 |> set_heap (<[this := set_trees [] (set_timerId None d)]> (heap w1))
                  |> set_canvas (clearRect_canvas (canvas w1)))) !! a = Some d' →
      maxTrunkHeight d' = trunk_height f * branch_ratio f ^ 7).
    { intros w1 Hw1. cbn [set_gardenDirector set_canvas set_heap heap]. rewrite Hw1.
      destruct (decide (a = this)) as [->|Hne].
      - rewrite lookup_insert_eq. intros [= <-]. exact (IH this d Hd).
      - rewrite lookup_insert_ne by done. apply IH. }
    destruct (timerId d); by apply Hh.
  - injection Hexec as <-. unfold fire.
    destruct (intervals w !! id) as [iv|]; [|done].
    destruct (heap w !! callback_this iv) as [d|] eqn:Hd; [|done].
    pose proof (work_maxTrunkHeight (d, canvas w)) as Hm.
    destruct (work (d, canvas w)) as [d' c']. split; [done|].
    intros a d''. cbn [set_canvas set_heap heap].
    destruct (decide (a = callback_this iv)) as [->|Hne].
    + rewrite lookup_insert_eq. intros [= <-]. cbn [fst] in Hm. rewrite Hm.
      exact (IH (callback_this iv) d Hd).
    + rewrite lookup_insert_ne by done. apply IH.
Qed.

(** * Further properties of the code *)

(** ** The shape of one tree *)

Lemma cos_minus_PI2 a : cos (a - PI / 2) = sin a.
Proof.
  replace (a - PI / 2) with (- (PI / 2 - a)) by ring.
  by rewrite cos_neg, cos_shift.
Qed.

Lemma sin_minus_PI2 a : sin (a - PI / 2) = - cos a.
Proof.
  replace (a - PI / 2) with (- (PI / 2 - a)) by ring.
  by rewrite sin_neg, sin_shift.
Qed.

Lemma sin_cos_square a : sin a * sin a + cos a * cos a = 1.
Proof. pose proof (sin2_cos2 a) as H. unfold Rsqr in H. exact H. Qed.

(** X1: the trunk from [p0] to [p1] has length [trunkHeight], and the two
    branches from [p1] to [p2] and to [p3] both have length
    [trunkHeight * branchRatio] (as squared lengths). *)
Theorem tree_segment_lengths (t : Tree) :
  dot (vec (p0 t) (p1 t)) (vec (p0 t) (p1 t)) = trunkHeight t * trunkHeight t
  ∧ dot (vec (p1 t) (p2 t)) (vec (p1 t) (p2 t))
    = (trunkHeight t * branchRatio t) * (trunkHeight t * branchRatio t)
  ∧ dot (vec (p1 t) (p3 t)) (vec (p1 t) (p3 t))
    = (trunkHeight t * branchRatio t) * (trunkHeight t * branchRatio t).
Proof.
  unfold dot, vec, p3, p2, p1, p0; cbn [Point.x Point.y].
  set (a := treeIncline t - PI / 2).
  set (al := branchAngle t / 2 - treeIncline t).
  set (ar := branchAngle t / 2 + treeIncline t).
  pose proof (sin_cos_square a) as Ha.
  pose proof (sin_cos_square al) as Hl.
  pose proof (sin_cos_square ar) as Hr.
  split; [|split].
  - transitivity (trunkHeight t * trunkHeight t * (sin a * sin a + cos a * cos a));
      [ring | rewrite Ha; ring].
  - transitivity ((trunkHeight t * branchRatio t) * (trunkHeight t * branchRatio t)
                  * (sin al * sin al + cos al * cos al));
      [ring | rewrite Hl; ring].
  - transitivity ((trunkHeight t * branchRatio t) * (trunkHeight t * branchRatio t)
                  * (sin ar * sin ar + cos ar * cos ar));
      [ring | rewrite Hr; ring].
Qed.

(** X2: the two branches open by [branchAngle], each turning away from the
    trunk's direction by half of it: the dot products of the segment vectors
    are the products of their lengths with [cos branchAngle] and with
    [cos (branchAngle / 2)]. *)
Theorem tree_branch_angles (t : Tree) :
  let h := trunkHeight t in
  let l := trunkHeight t * branchRatio t in
  dot (vec (p1 t) (p2 t)) (vec (p1 t) (p3 t)) = l * l * cos (branchAngle t)
  ∧ dot (vec (p0 t) (p1 t)) (vec (p1 t) (p2 t)) = h * l * cos (branchAngle t / 2)
  ∧ dot (vec (p0 t) (p1 t)) (vec (p1 t) (p3 t)) = h * l * cos (branchAngle t / 2).
Proof.
  intros h l. subst h l.
  unfold dot, vec, p3, p2, p1, p0; cbn [Point.x Point.y].
  rewrite cos_minus_PI2, sin_minus_PI2.
  set (i := treeIncline t).
  set (al := branchAngle t / 2 - i).
  set (ar := branchAngle t / 2 + i).
  split; [|split].
  - replace (branchAngle t) with (al + ar) by (subst al ar; field).
    rewrite cos_plus. ring.
  - replace (branchAngle t / 2) with (i + al) by (subst al; ring).
    rewrite cos_plus. ring.
  - replace (branchAngle t / 2) with (ar + - i) by (subst ar; ring).
    rewrite cos_plus, cos_neg, sin_neg. ring.
Qed.

(** X3: with numbers as reals, a child's trunk lies on its parent's branch:
    the left tree that [planNextTrees] builds runs from the parent's [p1] to
    the parent's [p2], the right one from [p1] to [p3].  So when the right
    child is drawn, its dark trunk stroke covers the parent's red branch
    (in binary64 the two computed end points can differ in the last
    place). *)
Theorem child_trunk_is_parent_branch (tree : Tree) :
  ∃ left right : Tree,
    nextTrees tree = [left; right]
    ∧ p0 left = p1 tree ∧ p1 left = p2 tree
    ∧ p0 right = p1 tree ∧ p1 right = p3 tree
    ∧ strokesOf tree !! 2%nat = Some (new_Stroke "#AA3340" (p1 tree) (p3 tree))
    ∧ strokesOf right !! 0%nat = Some (new_Stroke "#333344" (p1 tree) (p3 tree)).
Proof.
  eexists _, _. split; [reflexivity|].
  assert (Hl : p1 (new_Tree (p1 tree) (trunkHeight tree * branchRatio tree)
                            (branchRatio tree) (branchAngle tree)
                            (treeIncline tree - branchAngle tree / 2))
               = p2 tree).
  { unfold p2, p1 at 1, p0. cbn [root trunkHeight treeIncline branchRatio branchAngle].
    rewrite cos_minus_PI2, sin_minus_PI2.
    replace (treeIncline tree - branchAngle tree / 2)
      with (- (branchAngle tree / 2 - treeIncline tree)) by ring.
    rewrite sin_neg, cos_neg. f_equal; ring. }
  assert (Hr : p1 (new_Tree (p1 tree) (trunkHeight tree * branchRatio tree)
                            (branchRatio tree) (branchAngle tree)
                            (treeIncline tree + branchAngle tree / 2))
               = p3 tree).
  { unfold p3, p1 at 1, p0. cbn [root trunkHeight treeIncline branchRatio branchAngle].
    rewrite cos_minus_PI2, sin_minus_PI2.
    replace (treeIncline tree + branchAngle tree / 2)
      with (branchAngle tree / 2 + treeIncline tree) by ring.
    f_equal; ring. }
  split; [reflexivity|]. split; [exact Hl|]. split; [reflexivity|].
  split; [exact Hr|]. split; [reflexivity|].
  unfold strokesOf. cbn [lookup list_lookup]. rewrite Hr. reflexivity.
Qed.

(** ** Drawing *)

Lemma drawTree_size tree ctx :
  width (drawTree tree ctx) = width ctx ∧ height (drawTree tree ctx) = height ctx.
Proof. by destruct ctx. Qed.

(** X4: [drawTree] adds exactly three strokes after whatever was painted
    before: trunk and left branch in [#333344], right branch in [#AA3340].
    A path left pending in the context is not stroked, the canvas keeps its
    size, and the context is left with the right branch as its path. *)
Theorem drawTree_paints_three_strokes (tree : Tree) (ctx : Canvas) :
  painted (drawTree tree ctx)
  = painted ctx ++ [ new_Stroke "#333344" (p0 tree) (p1 tree);
                     new_Stroke "#333344" (p1 tree) (p2 tree);
                     new_Stroke "#AA3340" (p1 tree) (p3 tree) ]
  ∧ width (drawTree tree ctx) = width ctx
  ∧ height (drawTree tree ctx) = height ctx
  ∧ strokeStyle (drawTree tree ctx) = "#AA3340"
  ∧ path (drawTree tree ctx) = [(p1 tree, p3 tree)]
  ∧ pen (drawTree tree ctx) = Some (p3 tree).
Proof.
  split; [apply drawTree_painted|].
  destruct ctx as [wd ht st pn pth pt]. unfold drawTree. simpl.
  repeat split; reflexivity.
Qed.

(** ** The initial tree *)

(** X5: [GardenSpec]'s constructor yields exactly one tree, rooted at the
    bottom centre of the canvas with the form's trunk height and ratio, the
    form's angle converted from degrees to radians, and incline 0.  With
    numbers as reals its trunk is straight up and its two branch ends mirror
    each other across the trunk. *)
Theorem GardenSpec_upright_root (f : Form) (cv : Canvas) :
  let t := initialTree f cv in
  initialTrees (GardenSpec_new f cv) = [t]
  ∧ p0 t = Point.new (width cv / 2) (height cv * 0.88)
  ∧ p1 t = Point.new (width cv / 2) (height cv * 0.88 - trunk_height f)
  ∧ Point.x (p2 t) + Point.x (p3 t) = 2 * Point.x (p1 t)
  ∧ Point.y (p2 t) = Point.y (p3 t)
  ∧ trunkHeight t = trunk_height f
  ∧ branchRatio t = branch_ratio f
  ∧ branchAngle t = PI * branch_angle f / 180
  ∧ treeIncline t = 0.
Proof.
  intros t. subst t. unfold initialTree, GardenSpec_new. cbn [initialTrees hd].
  split; [reflexivity|]. split; [reflexivity|].
  split; [by rewrite p1_upright|].
  unfold p2, p3. cbn [Point.x Point.y treeIncline trunkHeight branchRatio branchAngle].
  rewrite Rminus_0_r, Rplus_0_r.
  repeat split; ring.
Qed.

(** ** More on [work()] *)

(** X6: an empty queue is final: any number of further [work()] calls
    leaves both the director and the canvas exactly as they are. *)
Theorem work_on_empty_queue (d : GardenDirector) (ctx : Canvas) (n : nat) :
  trees d = [] →
  work (d, ctx) = (d, ctx) ∧ steps n (d, ctx) = (d, ctx).
Proof. intros E. split; [by apply work_idle | by apply steps_idle]. Qed.

Lemma work_on_empty_queue_witness :
  trees (new_GardenDirector [] 1 (Some 1%nat)) = []
  ∧ steps 5 (new_GardenDirector [] 1 (Some 1%nat), canvas scenario_page)
    = (new_GardenDirector [] 1 (Some 1%nat), canvas scenario_page).
Proof.
  split; [reflexivity|].
  exact (proj2 (work_on_empty_queue (new_GardenDirector [] 1 (Some 1%nat))
                  (canvas scenario_page) 5 eq_refl)).
Defined.

Lemma drawTrees_size l c :
  width (drawTrees l c) = width c ∧ height (drawTrees l c) = height c.
Proof.
  revert c. induction l as [|t l IH]; intros c; [done|].
  change (drawTrees (t :: l) c) with (drawTrees l (drawTree t c)).
  destruct (IH (drawTree t c)) as [-> ->].
  by destruct (drawTree_size t c) as [-> ->].
Qed.

Lemma work_draws_at_most_one s :
  ∃ drawn : list Tree,
    (length drawn ≤ 1)%nat ∧ snd (work s) = drawTrees drawn (snd s).
Proof.
  destruct s as [d c]. destruct (trees d) as [|t rest] eqn:E.
  { rewrite (work_idle _ _ E). exists []. split; [simpl; lia | done]. }
  destruct (Rlt_dec (trunkHeight t) (maxTrunkHeight d)) as [Hlt|Hge].
  - rewrite (work_discard _ _ _ _ E Hlt). exists []. split; [simpl; lia | done].
  - rewrite (work_draw _ _ _ _ E Hge). exists [t]. split; [simpl; lia | done].
Qed.

(** X7: [work()] never erases or repaints: after any number of calls the
    canvas is the old one with some trees drawn on top, at most one per
    call, three strokes each, and its size is unchanged. *)
Theorem steps_only_add_paint (n : nat) (s : GardenDirector * Canvas) :
  ∃ drawn : list Tree,
    (length drawn ≤ n)%nat
    ∧ snd (steps n s) = drawTrees drawn (snd s)
    ∧ painted (snd (steps n s)) = painted (snd s) ++ flat_map strokesOf drawn
    ∧ width (snd (steps n s)) = width (snd s)
    ∧ height (snd (steps n s)) = height (snd s).
Proof.
  assert (Hdrawn : ∃ drawn : list Tree,
             (length drawn ≤ n)%nat ∧ snd (steps n s) = drawTrees drawn (snd s)).
  { revert s. induction n as [|n IH]; intros s.
    - exists []. split; [simpl; lia | done].
    - cbn [steps]. destruct (work_draws_at_most_one s) as (l1 & Hl1 & E1).
      destruct (IH (work s)) as (l2 & Hl2 & E2).
      exists (l1 ++ l2). split; [rewrite length_app; lia|].
      by rewrite E2, E1, drawTrees_app. }
  destruct Hdrawn as (drawn & Hlen & E). exists drawn.
  split; [done|]. split; [done|]. rewrite E.
  split; [apply drawTrees_painted | apply drawTrees_size].
Qed.

Lemma work_keeps_ratio_angle (r a : R) s :
  Forall (λ t, branchRatio t = r ∧ branchAngle t = a) (trees (fst s)) →
  Forall (λ t, branchRatio t = r ∧ branchAngle t = a) (trees (fst (work s))).
Proof.
  destruct s as [d c]. cbn [fst]. intros Hall.
  destruct (trees d) as [|t rest] eqn:E.
  { rewrite (work_idle _ _ E). cbn [fst]. by rewrite E. }
  apply Forall_cons in Hall as [[Hr Ha] Hrest].
  destruct (Rlt_dec (trunkHeight t) (maxTrunkHeight d)) as [Hlt|Hge].
  - by rewrite (work_discard _ _ _ _ E Hlt).
  - rewrite (work_draw _ _ _ _ E Hge). cbn [fst set_trees trees].
    rewrite Forall_app. split; [done|]. by repeat constructor.
Qed.

(** X8: ratio and angle are never changed: if every tree in the queue has
    ratio [r] and angle [a], so has every tree in the queue after any
    number of [work()] calls. *)
Theorem steps_keep_ratio_angle (r a : R) (n : nat) (s : GardenDirector * Canvas) :
  Forall (λ t, branchRatio t = r ∧ branchAngle t = a) (trees (fst s)) →
  Forall (λ t, branchRatio t = r ∧ branchAngle t = a) (trees (fst (steps n s))).
Proof.
  revert s. induction n as [|n IH]; intros s Hall; cbn [steps]; [done|].
  by apply IH, work_keeps_ratio_angle.
Qed.

Lemma steps_keep_ratio_angle_witness :
  Forall (λ t, branchRatio t = 0.7 ∧ branchAngle t = PI / 6)
         (trees (fst (scenario_director, canvas scenario_page)))
  ∧ Forall (λ t, branchRatio t = 0.7 ∧ branchAngle t = PI / 6)
           (trees (fst (steps 300 (scenario_director, canvas scenario_page)))).
Proof.
  assert (H : Forall (λ t, branchRatio t = 0.7 ∧ branchAngle t = PI / 6)
                     (trees (fst (scenario_director, canvas scenario_page))))
    by (repeat constructor).
  split; [exact H|].
  exact (steps_keep_ratio_angle 0.7 (PI / 6) 300
           (scenario_director, canvas scenario_page) H).
Defined.

(** ** Timers at work *)

Lemma Window_eta w : set_canvas (canvas w) (set_heap (heap w) w) = w.
Proof. by destruct w. Qed.

Lemma page_start_running f wd ht : start (page f wd ht) = Some (running_page f wd ht).
Proof. reflexivity. Qed.

Lemma execs_reachable es : ∀ w0 w, execs es w0 = Some w → reachable w0 w.
Proof.
  induction es as [|e es IH] using rev_ind; intros w0 w Hex.
  - injection Hex as <-. constructor.
  - assert (Happ : ∀ l1 l2 u, execs (l1 ++ l2) u = execs l1 u ≫= execs l2).
    { clear. induction l1 as [|e l1 IH1]; intros l2 u; [done|].
      cbn [app execs]. destruct (exec e u) as [u'|]; [apply IH1 | done]. }
    rewrite Happ in Hex. destruct (execs es w0) as [w1|] eqn:E1; [|done].
    cbn in Hex. destruct (exec e w1) as [w2|] eqn:E2; [|done].
    injection Hex as <-. eapply reachable_exec; [by apply IH | done].
Qed.

Lemma execs_fires n id w : execs (repeat (Fire id) n) w = Some (fires n id w).
Proof. revert w. induction n as [|n IH]; intros w; [done|]. cbn. apply IH. Qed.

(** A timer whose director has an empty queue fires to no effect. *)
Lemma fire_idle id iv d w :
  intervals w !! id = Some iv →
  heap w !! callback_this iv = Some d →
  trees d = [] →
  fire id w = w.
Proof.
  intros Hiv Hd Hq. unfold fire. rewrite Hiv, Hd, (work_idle _ _ Hq).
  rewrite insert_id by done. apply Window_eta.
Qed.

Lemma fires_steps n : ∀ id iv d w,
  intervals w !! id = Some iv →
  heap w !! callback_this iv = Some d →
  fires n id w
  = set_canvas (snd (steps n (d, canvas w)))
      (set_heap (<[callback_this iv := fst (steps n (d, canvas w))]> (heap w)) w).
Proof.
  induction n as [|n IH]; intros id iv d w Hiv Hd.
  - cbn [fires steps fst snd]. rewrite insert_id by done. by rewrite Window_eta.
  - cbn [fires steps]. unfold fire at 1. rewrite Hiv, Hd.
    destruct (work (d, canvas w)) as [d1 c1].
    rewrite (IH id iv d1); [|done|cbn; by rewrite lookup_insert_eq].
    unfold set_canvas, set_heap; cbn. by rewrite insert_insert_eq.
Qed.

(** X9: a timer drives its director: [n] firings of a registered timer are
    [n] calls of [work()] on its director and the page's canvas, and touch
    nothing else on the page. *)
Theorem fires_are_steps (n id : nat) (iv : Interval) (d : GardenDirector) (w : Window) :
  intervals w !! id = Some iv →
  heap w !! callback_this iv = Some d →
  execs (repeat (Fire id) n) w = Some (fires n id w)
  ∧ fires n id w
    = set_canvas (snd (steps n (d, canvas w)))
        (set_heap (<[callback_this iv := fst (steps n (d, canvas w))]> (heap w)) w).
Proof.
  intros Hiv Hd. split; [apply execs_fires | by apply fires_steps].
Qed.

Lemma fires_are_steps_witness :
  intervals (running_page scenario_form 200 (100 / 0.88)) !! 1%nat
  = Some (new_Interval 0 10)
  ∧ execs (repeat (Fire 1) 300) (running_page scenario_form 200 (100 / 0.88))
    = Some (fires 300 1 (running_page scenario_form 200 (100 / 0.88))).
Proof.
  assert (H1 : intervals (running_page scenario_form 200 (100 / 0.88)) !! 1%nat
               = Some (new_Interval 0 10)) by reflexivity.
  split; [exact H1|].
  exact (proj1 (fires_are_steps 300 1 (new_Interval 0 10) _
                  (running_page scenario_form 200 (100 / 0.88)) H1 eq_refl)).
Defined.

(** ** Timers that outlive their director *)

(** X11: a timer that belongs to a director other than the current one never
    does anything: on every reachable page its firing leaves the whole page
    as it is.  (Such timers are what a second [start()] leaves behind.) *)
Theorem leftover_timer_is_harmless
    (f : Form) (wd ht : R) (w : Window) (id : nat) (iv : Interval) :
  reachable (page f wd ht) w →
  intervals w !! id = Some iv →
  gardenDirector w ≠ Some (callback_this iv) →
  fire id w = w.
Proof.
  intros Hw Hiv Hne.
  apply reachable_invariant in Hw as (_ & Hothers & _ & _).
  destruct (heap w !! callback_this iv) as [d|] eqn:Hd.
  - destruct (Hothers _ _ Hd Hne) as [Hq _]. by apply (fire_idle id iv d).
  - unfold fire. by rewrite Hiv, Hd.
Qed.

Lemma leftover_timer_is_harmless_witness :
  ∃ w : Window,
    reachable scenario_page w
    ∧ intervals w !! 1%nat = Some (new_Interval 0 10)
    ∧ gardenDirector w ≠ Some 0%nat
    ∧ fire 1 w = w.
Proof.
  pose proof (page_start_start_stop scenario_form 200 (100 / 0.88)) as Hex.
  eexists. 
  assert (Hreach := execs_reachable _ _ _ Hex).
  assert (Hiv : intervals
                  (new_Window scenario_form
                     (new_Canvas 200 (100 / 0.88) "#000000" None [] [])
                     {[ 0%nat := new_GardenDirector []
                                   (trunk_height scenario_form
                                    * branch_ratio scenario_form ^ 7) None ]}
                     None {[ 1%nat := new_Interval 0 10 ]} 3) !! 1%nat
                = Some (new_Interval 0 10)) by reflexivity.
  split; [exact Hreach|]. split; [exact Hiv|]. split; [discriminate|].
  exact (leftover_timer_is_harmless scenario_form 200 (100 / 0.88) _ 1
           (new_Interval 0 10) Hreach Hiv ltac:(discriminate)).
Defined.

(** ** The timer table *)

Lemma timers_invariant_run this w d :
  heap w !! this = Some d →
  gardenDirector w = Some this →
  (∀ id iv, intervals w !! id = Some iv →
            delay iv = 10%nat ∧ is_Some (heap w !! callback_this iv)) →
  timers_invariant (run this w).
Proof.
  intros Hd Hg Hall. split.
  - intros id iv. rewrite run_intervals, run_heap.
    destruct (decide (nextTimer w = id)) as [<-|Hne].
    + rewrite lookup_insert_eq. intros [= <-]. cbn [delay callback_this].
      split; [done|]. rewrite lookup_alter_eq, Hd. by eexists.
    + rewrite lookup_insert_ne by done. intros Hiv.
      destruct (Hall id iv Hiv) as [Hdelay [d' Hd']]. split; [done|].
      destruct (decide (callback_this iv = this)) as [->|Hne'].
      * rewrite lookup_alter_eq, Hd. by eexists.
      * rewrite lookup_alter_ne by done. eauto.
  - intros this'. rewrite run_gardenDirector, Hg. intros [= <-].
    exists (set_timerId (Some (nextTimer w)) d), (nextTimer w).
    rewrite run_heap, run_intervals, lookup_alter_eq, Hd, lookup_insert_eq.
    done.
Qed.

(** X12: on every reachable page, every registered timer has delay 10 and
    calls [work()] on a director that exists, and the current director's
    [timerId] names a timer that is registered for it. *)
Theorem reachable_timers (f : Form) (wd ht : R) (w : Window) :
  reachable (page f wd ht) w → timers_invariant w.
Proof.
  induction 1 as [|w e w' Hw [Hall Hcur] Hexec].
  { split.
    - intros id iv Hiv. cbn [page intervals] in Hiv. by rewrite lookup_empty in Hiv.
    - intros this Hthis. discriminate Hthis. }
  destruct e as [| |id]; simpl in Hexec.
  - destruct (gardenDirector w) as [this|] eqn:Eg.
    + rewrite (start_running _ _ Eg) in Hexec. injection Hexec as <-.
      destruct (Hcur this eq_refl) as (d & _ & Hd & _).
      by apply (timers_invariant_run this w d).
    + destruct (start_fresh _ Eg) as (d & _ & Hs). rewrite Hs in Hexec.
      injection Hexec as <-.
      apply (timers_invariant_run _ _ d).
      * cbn [set_gardenDirector set_heap heap]. apply lookup_insert_eq.
      * done.
      * intros id iv Hiv. cbn [set_gardenDirector set_heap heap intervals] in *.
        destruct (Hall id iv Hiv) as [Hdelay [d' Hd']]. split; [done|].
        destruct (decide (fresh (dom (heap w)) = callback_this iv)) as [->|Hne].
        -- rewrite lookup_insert_eq. eauto.
        -- rewrite lookup_insert_ne by done. eauto.
  - injection Hexec as <-. split; [|by intros this Hthis].
    destruct (gardenDirector w) as [this|] eqn:Eg;
      [|by rewrite (stop_not_running _ Eg)].
    destruct (Hcur this eq_refl) as (d & tid & Hd & Ht & _).
    destruct (stop_running w this d Eg Hd) as (_ & _ & Hh & Hi).
    intros id iv. rewrite Hi, Hh, Ht. intros Hiv.
    apply lookup_delete_Some in Hiv as [_ Hiv].
    destruct (Hall id iv Hiv) as [Hdelay [d' Hd']]. split; [done|].
    destruct (decide (this = callback_this iv)) as [->|Hne].
    + rewrite lookup_insert_eq. eauto.
    + rewrite lookup_insert_ne by done. eauto.
  - injection Hexec as <-. unfold fire.
    destruct (intervals w !! id) as [iv|] eqn:Hiv; [|done].
    destruct (heap w !! callback_this iv) as [d|] eqn:Hd; [|done].
    pose proof (work_timerId (d, canvas w)) as Htid.
    destruct (work (d, canvas w)) as [d' c']. cbn [fst] in Htid.
    split.
    + intros id' iv' Hiv'. cbn [set_canvas set_heap heap intervals] in *.
      destruct (Hall id' iv' Hiv') as [Hdelay [d'' Hd'']]. split; [done|].
      destruct (decide (callback_this iv = callback_this iv')) as [<-|Hne].
      * rewrite lookup_insert_eq. eauto.
      * rewrite lookup_insert_ne by done. eauto.
    + intros this Hthis. cbn [set_canvas set_heap heap intervals gardenDirector] in *.
      destruct (Hcur this Hthis) as (d1 & tid & Hd1 & Ht & Hreg).
      destruct (decide (callback_this iv = this)) as [E|Hne].
      * rewrite E in *. rewrite lookup_insert_eq.
        exists d', tid. assert (d1 = d) as -> by congruence.
        by rewrite Htid.
      * rewrite lookup_insert_ne by done. eauto.
Qed.

Lemma reachable_timers_witness :
  reachable scenario_page (running_page scenario_form 200 (100 / 0.88))
  ∧ timers_invariant (running_page scenario_form 200 (100 / 0.88)).
Proof.
  assert (H : reachable scenario_page (running_page scenario_form 200 (100 / 0.88))).
  { apply (reachable_exec _ scenario_page Start); [constructor|].
    exact (page_start_running scenario_form 200 (100 / 0.88)). }
  split; [exact H|].
  exact (reachable_timers scenario_form 200 (100 / 0.88) _ H).
Defined.

(** ** [start()] called only while stopped *)

Lemma fire_gardenDirector id w : gardenDirector (fire id w) = gardenDirector w.
Proof.
  unfold fire. destruct (intervals w !! id) as [iv|]; [|done].
  destruct (heap w !! callback_this iv) as [d|]; [|done].
  by destruct (work (d, canvas w)).
Qed.

Lemma fire_intervals id w : intervals (fire id w) = intervals w.
Proof.
  unfold fire. destruct (intervals w !! id) as [iv|]; [|done].
  destruct (heap w !! callback_this iv) as [d|]; [|done].
  by destruct (work (d, canvas w)).
Qed.

Lemma guarded_one_timer w0 w :
  one_timer w0 → reachable_guarded w0 w → one_timer w.
Proof.
  intros H0. induction 1 as [|w w' _ IH Eg Hstart|w _ IH|w id _ IH]; [done| | |].
  - unfold one_timer in IH. rewrite Eg in IH.
    destruct (start_fresh _ Eg) as (d & _ & Hs). rewrite Hs in Hstart.
    injection Hstart as <-. unfold one_timer. rewrite run_gardenDirector.
    cbn [set_gardenDirector gardenDirector].
    exists (set_timerId (Some (nextTimer w)) d), (nextTimer w).
    rewrite run_heap, run_intervals. cbn [set_gardenDirector set_heap heap intervals nextTimer].
    rewrite lookup_alter_eq, lookup_insert_eq, IH. split; [done|]. split; [done|].
    apply insert_empty.
  - unfold one_timer in *. rewrite stop_gardenDirector.
    destruct (gardenDirector w) as [this|] eqn:Eg.
    + destruct IH as (d & id & Hd & Ht & Hi).
      destruct (stop_running w this d Eg Hd) as (_ & _ & _ & ->).
      rewrite Ht, Hi. apply delete_singleton_eq.
    + by rewrite (stop_not_running _ Eg).
  - unfold one_timer in *. rewrite fire_gardenDirector, fire_intervals.
    destruct (gardenDirector w) as [this|] eqn:Eg; [|done].
    destruct IH as (d & tid & Hd & Ht & Hi).
    unfold fire. destruct (intervals w !! id) as [iv|] eqn:Hiv; [|eauto].
    rewrite Hi in Hiv. apply lookup_singleton_Some in Hiv as [<- <-].
    cbn [callback_this]. rewrite Hd.
    pose proof (work_timerId (d, canvas w)) as Htid.
    destruct (work (d, canvas w)) as [d' c']. cbn [fst] in Htid.
    exists d', tid. cbn [set_canvas set_heap heap].
    rewrite lookup_insert_eq. split; [done|]. split; [congruence | done].
Qed.

Lemma guarded_reachable w0 w : reachable_guarded w0 w → reachable w0 w.
Proof.
  induction 1 as [|w w' _ IH Eg Hstart|w _ IH|w id _ IH].
  - constructor.
  - by apply (reachable_exec _ w Start).
  - by apply (reachable_exec _ w Stop).
  - by apply (reachable_exec _ w (Fire id)).
Qed.

(** X13: when [start()] is only ever called while no director is current,
    there is never more than one timer: none while stopped, exactly the one
    the current director remembers while running, and none after [stop()]. *)
Theorem guarded_start_one_timer (f : Form) (wd ht : R) (w : Window) :
  reachable_guarded (page f wd ht) w →
  one_timer w
  ∧ (size (intervals w) ≤ 1)%nat
  ∧ (gardenDirector w = None → intervals w = ∅)
  ∧ intervals (stop w) = ∅.
Proof.
  intros Hw.
  assert (H0 : one_timer (page f wd ht)) by reflexivity.
  assert (H1 : one_timer w) by by apply (guarded_one_timer (page f wd ht)).
  assert (H2 : one_timer (stop w))
    by by apply (guarded_one_timer (page f wd ht)), guarded_stop.
  split; [done|]. split; [|split].
  - unfold one_timer in H1. destruct (gardenDirector w).
    + destruct H1 as (d & id & _ & _ & ->). by rewrite map_size_singleton.
    + rewrite H1, map_size_empty. lia.
  - intros Eg. unfold one_timer in H1. by rewrite Eg in H1.
  - unfold one_timer in H2. by rewrite stop_gardenDirector in H2.
Qed.

Lemma guarded_start_one_timer_witness :
  reachable_guarded scenario_page (running_page scenario_form 200 (100 / 0.88))
  ∧ size (intervals (running_page scenario_form 200 (100 / 0.88))) = 1%nat
  ∧ intervals (stop (running_page scenario_form 200 (100 / 0.88))) = ∅.
Proof.
  assert (H : reachable_guarded scenario_page
                (running_page scenario_form 200 (100 / 0.88))).
  { apply (guarded_start _ scenario_page); [constructor | reflexivity |].
    exact (page_start_running scenario_form 200 (100 / 0.88)). }
  split; [exact H|]. split; [reflexivity|].
  exact (proj2 (proj2 (proj2
    (guarded_start_one_timer scenario_form 200 (100 / 0.88) _ H)))).
Defined.

(** ** Stopping and starting again *)

Lemma reachable_dimensions f wd ht w :
  reachable (page f wd ht) w →
  width (canvas w) = wd ∧ height (canvas w) = ht.
Proof.
  induction 1 as [|w e w' _ [Hwd Hht] Hexec]; [done|].
  destruct e as [| |id]; simpl in Hexec.
  - destruct (gardenDirector w) as [this|] eqn:Eg.
    + rewrite (start_running _ _ Eg) in Hexec. by injection Hexec as <-.
    + destruct (start_fresh _ Eg) as (d & _ & Hs). rewrite Hs in Hexec.
      by injection Hexec as <-.
  - injection Hexec as <-. unfold stop, retire.
    destruct (gardenDirector w) as [this|]; [|done].
    destruct (heap w !! this) as [d|]; [|done]. by destruct (timerId d).
  - injection Hexec as <-. unfold fire.
    destruct (intervals w !! id) as [iv|]; [|done].
    destruct (heap w !! callback_this iv) as [d|]; [|done].
    destruct (work_draws_at_most_one (d, canvas w)) as (l & _ & E).
    destruct (work (d, canvas w)) as [d' c']. cbn [snd] in E.
    cbn [set_canvas canvas]. rewrite E.
    destruct (drawTrees_size l (canvas w)) as [-> ->]. done.
Qed.

(** X14: [stop()] followed by [start()] begins afresh on every reachable
    page: a new director at an unused address holds the form's initial tree
    and the threshold computed from the form, the canvas is blank, and
    every older director stays retired. *)
Theorem stop_start_begins_afresh (f : Form) (wd ht : R) (w : Window) :
  reachable (page f wd ht) w →
  ∃ (w' : Window) (this : nat),
    execs [Stop; Start] w = Some w'
    ∧ gardenDirector w' = Some this
    ∧ heap (stop w) !! this = None
    ∧ heap w' !! this
      = Some (new_GardenDirector [initialTree f (canvas (page f wd ht))]
                (trunk_height f * branch_ratio f ^ 7) (Some (nextTimer w)))
    ∧ blank (canvas w')
    ∧ (∀ a d, a ≠ this → heap w' !! a = Some d → trees d = [] ∧ timerId d = None).
Proof.
  intros Hw.
  assert (Hs : reachable (page f wd ht) (stop w))
    by by apply (reachable_exec _ w Stop).
  destruct (reachable_stop_retired f wd ht w Hw) as (Hg & Hblank & Hret).
  destruct (reachable_threshold f wd ht _ Hs) as [Hf _].
  destruct (reachable_dimensions f wd ht _ Hs) as [Hwd Hht].
  destruct (start_fresh _ Hg) as (d & Hd & Hstart).
  rewrite GardenDirector_new_Some, Hf, Hwd, Hht in Hd. injection Hd as <-.
  set (this := fresh (dom (heap (stop w)))) in *.
  assert (Hfresh : heap (stop w) !! this = None)
    by (apply not_elem_of_dom, is_fresh).
  eexists _, this. split; [cbn [execs exec mbind option_bind]; exact Hstart|].
  split; [done|]. split; [done|].
  rewrite run_heap, run_canvas.
  cbn [set_gardenDirector set_heap heap canvas nextTimer].
  split; [|split; [done|]].
  - by rewrite lookup_alter_eq, lookup_insert_eq, stop_nextTimer.
  - intros a d' Hne. rewrite lookup_alter_ne, lookup_insert_ne by done.
    apply Hret.
Qed.

Lemma stop_start_begins_afresh_witness :
  reachable scenario_page (running_page scenario_form 200 (100 / 0.88))
  ∧ ∃ (w' : Window) (this : nat),
      execs [Stop; Start] (running_page scenario_form 200 (100 / 0.88)) = Some w'
      ∧ gardenDirector w' = Some this
      ∧ blank (canvas w').
Proof.
  assert (H : reachable scenario_page (running_page scenario_form 200 (100 / 0.88))).
  { apply (reachable_exec _ scenario_page Start); [constructor|].
    exact (page_start_running scenario_form 200 (100 / 0.88)). }
  split; [exact H|].
  destruct (stop_start_begins_afresh scenario_form 200 (100 / 0.88) _ H)
    as (w' & this & Hex & Hg & _ & _ & Hb & _).
  exists w', this. repeat split; assumption.
Defined.

(** X15: on every reachable page [stop()] unsets the global, leaves the
    canvas blank and every director with an empty queue and no timer id; a
    second [stop()] changes nothing more, and [stop()] on a page that is
    not running changes nothing at all. *)
Theorem stop_retires_every_director (f : Form) (wd ht : R) (w : Window) :
  reachable (page f wd ht) w →
  retired (stop w)
  ∧ stop (stop w) = stop w
  ∧ (gardenDirector w = None → stop w = w).
Proof.
  intros Hw. split; [by apply (reachable_stop_retired f wd ht)|].
  split; [apply stop_idempotent | apply stop_not_running].
Qed.

Lemma stop_retires_every_director_witness :
  reachable scenario_page (running_page scenario_form 200 (100 / 0.88))
  ∧ retired (stop (running_page scenario_form 200 (100 / 0.88))).
Proof.
  assert (H : reachable scenario_page (running_page scenario_form 200 (100 / 0.88))).
  { apply (reachable_exec _ scenario_page Start); [constructor|].
    exact (page_start_running scenario_form 200 (100 / 0.88)). }
  split; [exact H|].
  exact (proj1 (stop_retires_every_director scenario_form 200 (100 / 0.88) _ H)).
Defined.

(** ** [start()] again and again *)

Lemma execs_app l1 : ∀ l2 w, execs (l1 ++ l2) w = execs l1 w ≫= execs l2.
Proof.
  induction l1 as [|e l1 IH]; intros l2 w; [done|].
  cbn [app execs]. destruct (exec e w) as [w'|]; [apply IH | done].
Qed.

Lemma repeat_S_end {A} (a : A) n : repeat a (S n) = repeat a n ++ [a].
Proof. exact (repeat_cons n a). Qed.

(** The page after [S k] calls of [start()] in a row, from a fresh page. *)
Lemma starts_in_a_row f wd ht k :
  ∃ w d,
    execs (repeat Start (S k)) (page f wd ht) = Some w
    ∧ gardenDirector w = Some 0%nat
    ∧ nextTimer w = S (S k)
    ∧ heap w !! 0%nat = Some d
    ∧ timerId d = Some (S k)
    ∧ intervals w !! S k = Some (new_Interval 0 10)
    ∧ size (intervals w) = S k
    ∧ (∀ id iv, intervals w !! id = Some iv →
                iv = new_Interval 0 10 ∧ (id < nextTimer w)%nat).
Proof.
  induction k as [|k (w & d & Hex & Hg & Hn & Hd & Ht & Hl & Hs & Hall)].
  - eexists (running_page f wd ht), _.
    split; [exact (page_start_running f wd ht)|].
    split; [reflexivity|]. split; [reflexivity|]. split; [reflexivity|].
    split; [reflexivity|]. split; [reflexivity|].
    split; [apply map_size_singleton|].
    intros id iv Hiv. cbn [running_page intervals nextTimer] in *.
    apply lookup_singleton_Some in Hiv as [<- <-]. split; [done | lia].
  - exists (run 0 w), (set_timerId (Some (nextTimer w)) d).
    assert (Hnew : intervals w !! nextTimer w = None).
    { destruct (intervals w !! nextTimer w) as [iv|] eqn:E; [|done].
      destruct (Hall _ _ E) as [_ Hlt]. lia. }
    split.
    { rewrite repeat_S_end, execs_app, Hex. cbn [mbind option_bind execs exec].
      by rewrite (start_running _ _ Hg). }
    rewrite run_gardenDirector, run_nextTimer, run_heap, run_intervals, Hn.
    split; [done|]. split; [done|].
    split; [by rewrite lookup_alter_eq, Hd|].
    split; [done|].
    split; [apply lookup_insert_eq|].
    split; [by rewrite map_size_insert_None, Hs by (by rewrite <- Hn)|].
    intros id iv Hiv.
    destruct (decide (S (S k) = id)) as [<-|Hne].
    + rewrite lookup_insert_eq in Hiv. injection Hiv as <-. split; [done | lia].
    + rewrite lookup_insert_ne in Hiv by done.
      destruct (Hall _ _ Hiv) as [-> Hlt]. split; [done | lia].
Qed.

(** X16: on a page whose form and canvas exist, [start()] called [k + 1]
    times in a row from a fresh page constructs one director and registers
    [k + 1] timers, every one of them for that director with delay 10; the
    director remembers only the last id, and a following [stop()] cancels
    that one timer and leaves the other [k] registered. *)
Theorem repeated_start_registers_timers (f : Form) (wd ht : R) (k : nat) :
  ∃ (w : Window) (d : GardenDirector),
    execs (repeat Start (S k)) (page f wd ht) = Some w
    ∧ gardenDirector w = Some 0%nat
    ∧ dom (heap w) = {[ 0%nat ]}
    ∧ heap w !! 0%nat = Some d
    ∧ timerId d = Some (S k)
    ∧ size (intervals w) = S k
    ∧ (∀ id iv, intervals w !! id = Some iv → iv = new_Interval 0 10)
    ∧ intervals (stop w) = delete (S k) (intervals w)
    ∧ size (intervals (stop w)) = k.
Proof.
  destruct (starts_in_a_row f wd ht k)
    as (w & d & Hex & Hg & Hn & Hd & Ht & Hl & Hs & Hall).
  exists w, d.
  assert (Hdom : ∀ n, ∃ w' , execs (repeat Start (S n)) (page f wd ht) = Some w'
                              ∧ dom (heap w') = {[ 0%nat ]}).
  { induction n as [|n (w' & Hex' & Hdom')].
    - exists (running_page f wd ht). split; [exact (page_start_running f wd ht)|].
      cbn [running_page heap]. apply dom_singleton_L.
    - destruct (starts_in_a_row f wd ht n) as (w1 & d1 & Hex1 & Hg1 & _).
      rewrite Hex' in Hex1. injection Hex1 as <-.
      exists (run 0 w'). split.
      + rewrite repeat_S_end, execs_app, Hex'. cbn [mbind option_bind execs exec].
        by rewrite (start_running _ _ Hg1).
      + rewrite run_heap. by rewrite dom_alter_L. }
  destruct (Hdom k) as (w' & Hex' & Hdom'). rewrite Hex in Hex'.
  injection Hex' as <-.
  destruct (stop_running w 0 d Hg Hd) as (_ & _ & _ & Hi). rewrite Ht in Hi.
  split; [done|]. split; [done|]. split; [done|]. split; [done|].
  split; [done|]. split; [done|].
  split; [intros id iv Hiv; by destruct (Hall id iv Hiv)|].
  split; [done|].
  rewrite Hi, map_size_delete, Hl, Hs. done.
Qed.

(** * The run over any arithmetic *)

Section AnyArithmetic.

Import Generic.
Local Open Scope number_scope.

Context {num : Type} {N : Number num}.

Implicit Types (d : GardenDirector num) (ctx c : Canvas num) (t tree : Tree num).
Implicit Types (s : GardenDirector num * Canvas num) (l q rest : list (Tree num)).

Lemma any_work_idle d ctx : trees d = [] → work (d, ctx) = (d, ctx).
Proof. intros E. unfold work. by rewrite E. Qed.

Lemma any_work_discard d ctx tree rest :
  trees d = tree :: rest →
  (trunkHeight tree <? maxTrunkHeight d) = true →
  work (d, ctx) = (set_trees rest d, ctx).
Proof.
  intros E Hlt. unfold work. rewrite E. cbn [set_trees maxTrunkHeight].
  by rewrite Hlt.
Qed.

Lemma any_work_draw d ctx tree rest :
  trees d = tree :: rest →
  (trunkHeight tree <? maxTrunkHeight d) = false →
  work (d, ctx) = (set_trees (rest ++ nextTrees tree) d, drawTree tree ctx).
Proof.
  intros E Hge. unfold work. rewrite E. cbn [set_trees maxTrunkHeight].
  by rewrite Hge.
Qed.

Lemma any_steps_add n m s : steps (n + m) s = steps m (steps n s).
Proof. revert s. induction n as [|n IH]; intros s; cbn [Nat.add steps]; [done | apply IH]. Qed.

Lemma any_steps_idle n d c : trees d = [] → steps n (d, c) = (d, c).
Proof.
  intros E. induction n as [|n IH]; cbn [steps]; [done|].
  by rewrite (any_work_idle _ _ E).
Qed.

Lemma any_pushes_add n m s :
  pushes (n + m) s = (pushes n s + pushes m (steps n s))%nat.
Proof.
  revert s. induction n as [|n IH]; intros s; cbn [Nat.add pushes steps]; [done|].
  rewrite IH. lia.
Qed.

Lemma any_pushes_idle n d c : trees d = [] → pushes n (d, c) = 0%nat.
Proof.
  intros E. induction n as [|n IH]; cbn [pushes]; [done|].
  unfold pushed. rewrite (any_work_idle _ _ E), IH. cbn [fst]. by rewrite E.
Qed.

Lemma any_work_keeps_tail s :
  (length (tail (trees (fst s))) ≤ length (trees (fst (work s))))%nat.
Proof.
  destruct s as [d ctx]. cbn [fst]. destruct (trees d) as [|t l] eqn:E.
  { cbn [tail length]. lia. }
  cbn [tail]. destruct (trunkHeight t <? maxTrunkHeight d) eqn:Hlt.
  - by rewrite (any_work_discard _ _ _ _ E Hlt).
  - rewrite (any_work_draw _ _ _ _ E Hlt). cbn [fst set_trees trees].
    rewrite length_app. lia.
Qed.

Lemma any_steps_queue_length n s :
  (length (trees (fst s)) + pushes n s
   ≤ length (trees (fst (steps n s))) + n)%nat.
Proof.
  revert s. induction n as [|n IH]; intros s; cbn [pushes steps]; [lia|].
  specialize (IH (work s)). pose proof (any_work_keeps_tail s) as Hw.
  unfold pushed. destruct (trees (fst s)) as [|t l]; cbn [tail length] in *; lia.
Qed.



Lemma any_drawTrees_app l1 l2 c :
  drawTrees (l1 ++ l2) c = drawTrees l2 (drawTrees l1 c).
Proof. apply fold_left_app. Qed.


Lemma any_flat_map_nextTrees_length l :
  length (flat_map nextTrees l) = (2 * length l)%nat.
Proof. induction l as [|t l IH]; cbn [flat_map length]; [done|]. rewrite length_app, IH. simpl. lia. Qed.


(** A front segment of trees that all pass the size test is drawn tree by
    tree, and their children queue up behind in the same order. *)
Lemma any_steps_draw_front l : ∀ q m i c,
  Forall (λ t, (trunkHeight t <? m) = false) l →
  steps (length l) (new_GardenDirector (l ++ q) m i, c)
  = (new_GardenDirector (q ++ flat_map nextTrees l) m i, drawTrees l c)
  ∧ pushes (length l) (new_GardenDirector (l ++ q) m i, c) = (2 * length l)%nat.
Proof.
  induction l as [|t l IH]; intros q m i c Hall.
  - cbn. by rewrite app_nil_r.
  - apply Forall_cons in Hall as [Ht Hl].
    assert (Hw : work (new_GardenDirector ((t :: l) ++ q) m i, c)
                 = (new_GardenDirector (l ++ (q ++ nextTrees t)) m i, drawTree t c)).
    { rewrite (any_work_draw _ _ t (l ++ q)); [|done|done].
      unfold set_trees. cbn [trees maxTrunkHeight timerId]. by rewrite <- app_assoc. }
    cbn [length steps pushes]. unfold pushed. rewrite Hw.
    destruct (IH (q ++ nextTrees t) m i (drawTree t c) Hl) as [-> ->].
    split.
    + cbn [flat_map]. by rewrite <- app_assoc.
    + cbn [fst trees tail app]. rewrite !length_app. cbn [nextTrees length]. lia.
Qed.

(** A front segment of trees that all fail the size test is dropped. *)
Lemma any_steps_discard_front l : ∀ q m i c,
  Forall (λ t, (trunkHeight t <? m) = true) l →
  steps (length l) (new_GardenDirector (l ++ q) m i, c)
  = (new_GardenDirector q m i, c)
  ∧ pushes (length l) (new_GardenDirector (l ++ q) m i, c) = 0%nat.
Proof.
  induction l as [|t l IH]; intros q m i c Hall.
  - done.
  - apply Forall_cons in Hall as [Ht Hl].
    assert (Hw : work (new_GardenDirector ((t :: l) ++ q) m i, c)
                 = (new_GardenDirector (l ++ q) m i, c)).
    { by rewrite (any_work_discard _ _ t (l ++ q)). }
    cbn [length steps pushes]. unfold pushed. rewrite Hw.
    destruct (IH q m i c Hl) as [-> ->].
    split; [done|]. cbn [fst trees tail app]. lia.
Qed.

Lemma any_generation_length k t : length (generation k t) = (2 ^ k)%nat.
Proof.
  induction k as [|k IH]; [done|].
  cbn [generation]. rewrite any_flat_map_nextTrees_length, IH, Nat.pow_succ_r'. lia.
Qed.

Lemma any_generations_S k t :
  generations (S k) t = generations k t ++ generation k t.
Proof.
  unfold generations. rewrite seq_S, flat_map_app. cbn [flat_map Nat.add].
  by rewrite app_nil_r.
Qed.

Lemma pow2_positive k : (0 < 2 ^ k)%nat.
Proof. apply Nat.neq_0_lt_0, Nat.pow_nonzero. lia. Qed.

Lemma any_generations_length k t : length (generations k t) = (2 ^ k - 1)%nat.
Proof.
  induction k as [|k IH]; [done|].
  rewrite any_generations_S, length_app, IH, any_generation_length, Nat.pow_succ_r'.
  pose proof (pow2_positive k). lia.
Qed.

(** Every tree of generation [k] has the same trunk height: the root's,
    multiplied by the ratio [k] times; and it has the root's ratio. *)
Lemma any_generation_heights k t :
  Forall (λ u, trunkHeight u = height_at k (trunkHeight t) (branchRatio t)
               ∧ branchRatio u = branchRatio t)
         (generation k t).
Proof.
  induction k as [|k IH].
  - by repeat constructor.
  - cbn [generation height_at].
    induction IH as [|u l [Hh Hr] _ IHl]; [constructor|].
    cbn [flat_map nextTrees app].
    repeat constructor; cbn [trunkHeight branchRatio]; try done; by rewrite Hh, Hr.
Qed.

Lemma first_belowb_spec (h r m : num) depth :
  first_belowb h r m depth = true → first_below h r m depth.
Proof.
  unfold first_belowb, first_below. rewrite andb_true_iff, forallb_forall.
  intros [Hall Hlast]. split; [|done].
  intros k Hk. specialize (Hall k). rewrite in_seq in Hall.
  apply negb_true_iff, Hall. lia.
Qed.

End AnyArithmetic.

(** ** Growth, generation by generation, over any arithmetic *)

Section AnyGrowth.

Import Generic.
Local Open Scope number_scope.

Context {num : Type} {N : Number num}.

Variable root : Tree num.
Variable timer : option nat.

Local Abbreviation h := (trunkHeight root).
Local Abbreviation r := (branchRatio root).
Local Abbreviation m := (trunkHeight root * branchRatio root ** seven).
Local Abbreviation director q := (new_GardenDirector q m timer).

Lemma any_generation_test k (b : bool) :
  (height_at k h r <? m) = b →
  Forall (λ t, (trunkHeight t <? m) = b) (generation k root).
Proof.
  intros Hb. eapply Forall_impl; [apply any_generation_heights|].
  intros t [Hh _]. cbv beta. by rewrite Hh.
Qed.

(** As long as the generations so far pass the size test, [2 ^ k - 1] calls
    draw generations 0 to [k - 1] and leave generation [k] in the queue. *)
Lemma any_grow_to_generation k : ∀ c,
  (∀ j, (j < k)%nat → (height_at j h r <? m) = false) →
  steps (2 ^ k - 1) (director [root], c)
  = (director (generation k root), drawTrees (generations k root) c)
  ∧ pushes (2 ^ k - 1) (director [root], c) = (2 ^ S k - 2)%nat.
Proof.
  induction k as [|k IH]; intros c Hpass; [done|].
  destruct (IH c) as [IHs IHp]; [intros j Hj; apply Hpass; lia|].
  pose proof (any_steps_draw_front (generation k root) [] m timer
                (drawTrees (generations k root) c)
                (any_generation_test k false (Hpass k ltac:(lia)))) as [Hs Hp].
  rewrite app_nil_r, any_generation_length in Hs, Hp.
  pose proof (pow2_positive k) as Hpos.
  replace (2 ^ S k - 1)%nat with ((2 ^ k - 1) + 2 ^ k)%nat
    by (rewrite Nat.pow_succ_r'; lia).
  rewrite any_steps_add, any_pushes_add, IHs, IHp, Hs, Hp.
  rewrite any_generations_S, any_drawTrees_app.
  split; [done|]. rewrite !Nat.pow_succ_r'. lia.
Qed.

Section FirstBelow.

Variable depth : nat.
Hypothesis Hfirst : first_below h r m depth.

(** The whole run: [2 ^ (depth + 1) - 1] calls draw generations 0 to
    [depth - 1], drop generation [depth] and leave the queue empty. *)
Lemma any_grow_complete c :
  steps (2 ^ S depth - 1) (director [root], c)
  = (director [], drawTrees (generations depth root) c)
  ∧ pushes (2 ^ S depth - 1) (director [root], c) = (2 ^ S depth - 2)%nat.
Proof.
  destruct Hfirst as [Hpass Hdrop].
  destruct (any_grow_to_generation depth c Hpass) as [Hs Hp].
  pose proof (any_steps_discard_front (generation depth root) [] m timer
                (drawTrees (generations depth root) c)
                (any_generation_test depth true Hdrop)) as [Hd Hq].
  rewrite app_nil_r, any_generation_length in Hd, Hq.
  pose proof (pow2_positive depth) as Hpos.
  replace (2 ^ S depth - 1)%nat with ((2 ^ depth - 1) + 2 ^ depth)%nat
    by (rewrite Nat.pow_succ_r'; lia).
  rewrite any_steps_add, any_pushes_add, Hs, Hp, Hd, Hq. split; [done|]. lia.
Qed.

Lemma any_pushes_total c n :
  (2 ^ S depth - 1 ≤ n)%nat → pushes n (director [root], c) = (2 ^ S depth - 2)%nat.
Proof.
  intros Hn. destruct (any_grow_complete c) as [Hs Hp].
  replace n with ((2 ^ S depth - 1) + (n - (2 ^ S depth - 1)))%nat by lia.
  rewrite any_pushes_add, Hs, Hp, any_pushes_idle by done. lia.
Qed.

Lemma any_pushes_bounded c n :
  (pushes n (director [root], c) ≤ 2 ^ S depth - 2)%nat.
Proof.
  destruct (Nat.le_gt_cases (2 ^ S depth - 1) n) as [Hn|Hn].
  - by rewrite any_pushes_total.
  - rewrite <- (any_pushes_total c (n + (2 ^ S depth - 1 - n))) by lia.
    rewrite any_pushes_add. lia.
Qed.

Lemma any_queue_empty_from c n :
  (2 ^ S depth - 1 ≤ n)%nat → trees (fst (steps n (director [root], c))) = [].
Proof.
  intros Hn. destruct (any_grow_complete c) as [Hs _].
  replace n with ((2 ^ S depth - 1) + (n - (2 ^ S depth - 1)))%nat by lia.
  by rewrite any_steps_add, Hs, any_steps_idle.
Qed.

Lemma any_queue_nonempty_before c n :
  (n < 2 ^ S depth - 1)%nat → trees (fst (steps n (director [root], c))) ≠ [].
Proof.
  intros Hn Hempty.
  pose proof (any_steps_queue_length n (director [root], c)) as Hlen.
  rewrite Hempty in Hlen.
  pose proof (any_pushes_total c (n + (2 ^ S depth - 1 - n))) as Hp.
  rewrite any_pushes_add in Hp.
  assert (Hz : pushes (2 ^ S depth - 1 - n) (steps n (director [root], c)) = 0%nat).
  { destruct (steps n (director [root], c)) as [d c']. by apply any_pushes_idle. }
  rewrite Hz in Hp. specialize (Hp ltac:(lia)).
  cbn [fst trees length] in Hlen. lia.
Qed.

End FirstBelow.

(** When no generation is below the threshold the queue never empties. *)
Lemma any_never_empties c n :
  never_below h r m → trees (fst (steps n (director [root], c))) ≠ [].
Proof.
  intros Hnever Hempty.
  destruct (any_grow_to_generation n c (λ j _, Hnever j)) as [Hs _].
  assert (Hn : (n < 2 ^ n)%nat) by (apply Nat.pow_gt_lin_r; lia).
  replace (2 ^ n - 1)%nat with (n + (2 ^ n - 1 - n))%nat in Hs by lia.
  rewrite any_steps_add in Hs.
  destruct (steps n (director [root], c)) as [d c'] eqn:E. cbn [fst] in Hempty.
  rewrite (any_steps_idle _ _ _ Hempty) in Hs.
  apply (f_equal (λ s, length (trees (fst s)))) in Hs. cbn [fst trees] in Hs.
  rewrite Hempty, any_generation_length in Hs. cbn [length] in Hs.
  pose proof (pow2_positive n). lia.
Qed.

End AnyGrowth.

(** ** The scenario in binary64 *)

(** With trunk height 100 and ratio 0.7 as doubles, the trees of
    generations 0 to 7 pass the size test and those of generation 8 fail
    it, as in exact arithmetic. *)
Lemma binary64_scenario :
  let h := 100%float in
  let r := 0x1.6666666666666p-1%float in
  let m := Binary64.maxTrunkHeight h r in
  forallb (λ k, negb (Binary64.discarded k h r m)) (seq 0 8) = true
  ∧ Binary64.discarded 8 h r m = true.
Proof. vm_compute. done. Qed.

(** The same when the engine's [0.7 ** 7] is off by up to two units in the
    last place, either way. *)
Lemma binary64_scenario_robust :
  let h := 100%float in
  let r := 0x1.6666666666666p-1%float in
  let p := Binary64.pow7 r in
  forallb (λ p', let m := (h * p')%float in
                 forallb (λ k, negb (Binary64.discarded k h r m)) (seq 0 8)
                 && Binary64.discarded 8 h r m)
          [ next_down (next_down p); next_down p; p; next_up p; next_up (next_up p) ]
  = true.
Proof. vm_compute. done. Qed.

(** With ratio 1/2 every product is exact. *)
Lemma binary64_halving :
  let h := 100%float in
  let r := 0.5%float in
  let m := Binary64.maxTrunkHeight h r in
  forallb (λ k, negb (Binary64.discarded k h r m)) (seq 0 8) = true
  ∧ Binary64.discarded 8 h r m = true
  ∧ Binary64.trunkHeight_at 7 h r = m.
Proof. vm_compute. done. Qed.

(** ** How deep the tree grows in binary64

    [Math.cos], [Math.sin] and [**] are any functions on doubles; of [**]
    only the one value [r ** 7] matters, and it is taken to be the correctly
    rounded power or one of its two neighbours. *)

Section Binary64Growth.

Variables (Math_cos Math_sin : float → float) (pow : float → float → float).

Local Abbreviation engine := (binary64 Math_cos Math_sin pow).

Local Open Scope float_scope.

(** Ratio 1/2, whose seventh power is a double: generation 8 is the first
    below the threshold, as in exact arithmetic. *)
Lemma binary64_halving_depth :
  pow 0.5 7 = 0.0078125 →
  @Generic.first_below float engine 100 0.5 (100 * pow 0.5 7) 8%nat.
Proof.
  intros Hp. apply first_belowb_spec. cbn [Generic.pow engine binary64].
  rewrite Hp. vm_compute. reflexivity.
Qed.

(** Ratio 0.7: generation 8 is the first below the threshold. *)
Lemma binary64_scenario_depth :
  within_one_ulp (Binary64.pow7 0x1.6666666666666p-1) (pow 0x1.6666666666666p-1 7) →
  @Generic.first_below float engine 100 0x1.6666666666666p-1
     (100 * pow 0x1.6666666666666p-1 7) 8%nat.
Proof.
  intros Hp. apply first_belowb_spec. cbn [Generic.pow engine binary64].
  destruct Hp as [-> | [-> | ->]]; vm_compute; reflexivity.
Qed.

(** Ratio 0.65: generation 7 is already below the threshold, because the
    seven products one after the other round lower than the power. *)
Lemma binary64_short_depth :
  within_one_ulp (Binary64.pow7 0x1.4cccccccccccdp-1) (pow 0x1.4cccccccccccdp-1 7) →
  @Generic.first_below float engine 100 0x1.4cccccccccccdp-1
     (100 * pow 0x1.4cccccccccccdp-1 7) 7%nat.
Proof.
  intros Hp. apply first_belowb_spec. cbn [Generic.pow engine binary64].
  destruct Hp as [-> | [-> | ->]]; vm_compute; reflexivity.
Qed.

(** Trunk height 1e-310 and ratio 0.01: the trunk heights are 0 from
    generation 7 on. *)
Lemma binary64_underflow_heights (k : nat) :
  @Generic.height_at float engine (7 + k) 0x0.012688b70e62bp-1022 0x1.47ae147ae147bp-7
  = 0.
Proof.
  induction k as [|k IH]; [vm_compute; reflexivity|].
  rewrite Nat.add_succ_r. cbn [Generic.height_at]. rewrite IH.
  vm_compute. reflexivity.
Qed.

(** There the threshold is 0 as well, and nothing is below it. *)
Lemma binary64_underflow_never_below :
  within_one_ulp (Binary64.pow7 0x1.47ae147ae147bp-7) (pow 0x1.47ae147ae147bp-7 7) →
  @Generic.never_below float engine 0x0.012688b70e62bp-1022 0x1.47ae147ae147bp-7
     (0x0.012688b70e62bp-1022 * pow 0x1.47ae147ae147bp-7 7).
Proof.
  intros Hp k. cbn [Generic.pow engine binary64].
  assert (Hm : 0x0.012688b70e62bp-1022 * pow 0x1.47ae147ae147bp-7 7 = 0)
    by (destruct Hp as [-> | [-> | ->]]; vm_compute; reflexivity).
  rewrite Hm.
  do 7 (destruct k as [|k]; [vm_compute; reflexivity|]).
  change (S (S (S (S (S (S (S k))))))) with (7 + k)%nat.
  rewrite binary64_underflow_heights. vm_compute. reflexivity.
Qed.

(** So with trunk height 100 and ratio 0.65 the queue is empty after 255
    calls: 127 trees are drawn and 255 are placed on the queue in all. *)
Lemma binary64_short_run (root : Generic.Tree float) (timer : option nat)
    (c : Generic.Canvas float) :
  Generic.trunkHeight root = 100 →
  Generic.branchRatio root = 0x1.4cccccccccccdp-1 →
  within_one_ulp (Binary64.pow7 0x1.4cccccccccccdp-1) (pow 0x1.4cccccccccccdp-1 7) →
  let m := 100 * pow 0x1.4cccccccccccdp-1 7 in
  let s0 := (Generic.new_GardenDirector [root] m timer, c) in
  @Generic.steps float engine 255 s0
  = (Generic.new_GardenDirector [] m timer,
     @Generic.drawTrees float engine (@Generic.generations float engine 7 root) c)
  ∧ @Generic.placed float engine 255 s0 = 255%nat
  ∧ length (@Generic.generations float engine 7 root) = 127%nat.
Proof.
  intros Hh Hr Hp m s0. subst m s0.
  pose proof (binary64_short_depth Hp) as Hf.
  rewrite <- Hr, <- Hh in Hf |- *.
  destruct (any_grow_complete (N := engine) root timer 7 Hf c) as [Hrun Hpush].
  split; [exact Hrun|]. split.
  - unfold Generic.placed. etransitivity; [exact (f_equal (Nat.add 1) Hpush)|].
    reflexivity.
  - exact (any_generations_length (N := engine) 7 root).
Qed.

(** With ratio 1/2 it is empty after 511 calls and not before, and 511
    trees are placed on it in all. *)
Lemma binary64_halving_run (root : Generic.Tree float) (timer : option nat)
    (c : Generic.Canvas float) :
  Generic.trunkHeight root = 100 →
  Generic.branchRatio root = 0.5 →
  pow 0.5 7 = 0.0078125 →
  let s0 := (Generic.new_GardenDirector [root] (100 * pow 0.5 7) timer, c) in
  Generic.trees (fst (@Generic.steps float engine 511 s0)) = []
  ∧ Generic.trees (fst (@Generic.steps float engine 510 s0)) ≠ []
  ∧ @Generic.placed float engine 511 s0 = 511%nat.
Proof.
  intros Hh Hr Hp s0. subst s0.
  pose proof (binary64_halving_depth Hp) as Hf.
  rewrite <- Hr, <- Hh in Hf |- *.
  split; [|split].
  - apply (any_queue_empty_from (N := engine) root timer 8 Hf c 511).
    vm_compute. lia.
  - apply (any_queue_nonempty_before (N := engine) root timer 8 Hf c 510).
    vm_compute. lia.
  - unfold Generic.placed.
    pose proof (any_pushes_total (N := engine) root timer 8 Hf c 511) as Hpush.
    etransitivity; [apply (f_equal (Nat.add 1)), Hpush; vm_compute; lia|].
    reflexivity.
Qed.

(** With trunk height 1e-310 and ratio 0.01 the queue never empties. *)
Lemma binary64_underflow_run (root : Generic.Tree float) (timer : option nat)
    (c : Generic.Canvas float) (n : nat) :
  Generic.trunkHeight root = 0x0.012688b70e62bp-1022 →
  Generic.branchRatio root = 0x1.47ae147ae147bp-7 →
  within_one_ulp (Binary64.pow7 0x1.47ae147ae147bp-7) (pow 0x1.47ae147ae147bp-7 7) →
  Generic.trees
    (fst (@Generic.steps float engine n
            (Generic.new_GardenDirector [root]
               (0x0.012688b70e62bp-1022 * pow 0x1.47ae147ae147bp-7 7) timer, c)))
  ≠ [].
Proof.
  intros Hh Hr Hp.
  pose proof (binary64_underflow_never_below Hp) as Hf.
  rewrite <- Hr, <- Hh in Hf |- *.
  exact (any_never_empties (N := engine) root timer c n Hf).
Qed.

(** The size test is strict in binary64 as well: no double is below
    itself. *)
Lemma binary64_ltb_irrefl (x : float) : (x <? x) = false.
Proof.
  rewrite ltb_spec. unfold SFltb, SFcompare.
  destruct (Prim2SF x) as [[|]|[|]| |[|] m e]; try reflexivity.
  - rewrite Z.compare_refl, Pos.compare_cont_refl. reflexivity.
  - rewrite Z.compare_refl, Pos.compare_cont_refl. reflexivity.
Qed.

(** So a tree whose trunk height is the threshold itself is drawn and its
    two children are queued, whatever the doubles are. *)
Lemma binary64_threshold_tree_is_drawn
    (d : Generic.GardenDirector float) (ctx : Generic.Canvas float)
    (tree : Generic.Tree float) (rest : list (Generic.Tree float)) :
  Generic.trees d = tree :: rest →
  Generic.trunkHeight tree = Generic.maxTrunkHeight d →
  @Generic.work float engine (d, ctx)
  = (Generic.set_trees (rest ++ @Generic.nextTrees float engine tree) d,
     @Generic.drawTree float engine tree ctx).
Proof.
  intros E Heq. apply (any_work_draw (N := engine) d ctx tree rest E).
  rewrite Heq. apply binary64_ltb_irrefl.
Qed.

End Binary64Growth.

(** ** Termination and the number of trees queued, over any arithmetic *)

(** C2, amended: whatever the arithmetic, the trees of one generation all
    have the root's trunk height multiplied by the ratio once per
    generation.  If generation [depth] is the first whose trunk height is
    below the threshold, the queue is empty after [2 ^ (depth + 1) - 1]
    calls and not before, it stays empty, and [2 ^ (depth + 1) - 1] trees
    are placed on it in all.  If no generation is below the threshold, the
    queue never empties. *)
Theorem growth_by_generations
    {num : Type} {N : Generic.Number num}
    (root : Generic.Tree num) (timer : option nat) (c : Generic.Canvas num)
    (depth : nat) :
  let h := Generic.trunkHeight root in
  let r := Generic.branchRatio root in
  let m := Generic.mul h (Generic.pow r Generic.seven) in
  let s0 := (Generic.new_GardenDirector [root] m timer, c) in
  Generic.GardenDirector_of [root] = Some (Generic.new_GardenDirector [root] m None)
  ∧ (∀ k, length (Generic.generation k root) = (2 ^ k)%nat
          ∧ Forall (λ t, Generic.trunkHeight t = Generic.height_at k h r)
                   (Generic.generation k root))
  ∧ (Generic.first_below h r m depth →
       (∀ n, (2 ^ S depth - 1 ≤ n)%nat → Generic.trees (fst (Generic.steps n s0)) = [])
       ∧ (∀ n, (n < 2 ^ S depth - 1)%nat → Generic.trees (fst (Generic.steps n s0)) ≠ [])
       ∧ (∀ n, (Generic.placed n s0 ≤ 2 ^ S depth - 1)%nat)
       ∧ Generic.placed (2 ^ S depth - 1) s0 = (2 ^ S depth - 1)%nat)
  ∧ (Generic.never_below h r m →
       (∀ n, Generic.trees (fst (Generic.steps n s0)) ≠ [])
       ∧ (∀ k, Generic.placed (2 ^ k - 1) s0 = (2 ^ S k - 1)%nat)).
Proof.
  intros h r m s0. subst h r m s0.
  split; [reflexivity|]. split; [|split].
  - intros k. split; [apply any_generation_length|].
    eapply Forall_impl; [apply any_generation_heights|]. by intros t [Hh _].
  - intros Hfirst. split; [|split; [|split]].
    + intros n Hn. exact (any_queue_empty_from root timer depth Hfirst c n Hn).
    + intros n Hn. exact (any_queue_nonempty_before root timer depth Hfirst c n Hn).
    + intros n. unfold Generic.placed.
      pose proof (any_pushes_bounded root timer depth Hfirst c n) as Hp.
      pose proof (pow2_positive depth). rewrite Nat.pow_succ_r' in Hp |- *.
      cbn [fst Generic.trees length]. lia.
    + unfold Generic.placed.
      rewrite (any_pushes_total root timer depth Hfirst c _ (le_n _)).
      pose proof (pow2_positive depth). rewrite Nat.pow_succ_r'.
      cbn [fst Generic.trees length]. lia.
  - intros Hnever. split.
    + intros n. exact (any_never_empties root timer c n Hnever).
    + intros k. unfold Generic.placed.
      rewrite (proj2 (any_grow_to_generation root timer k c (λ j _, Hnever j))).
      pose proof (pow2_positive k). rewrite Nat.pow_succ_r'.
      cbn [fst Generic.trees length]. lia.
Qed.

Lemma growth_by_generations_witness :
  @Generic.first_below float sample_engine 100%float 0.5%float
     (100 * Binary64.pow7 0.5)%float 8
  ∧ Generic.trees
      (fst (@Generic.steps float sample_engine (2 ^ 9 - 1)
              (Generic.new_GardenDirector [binary64_root 100%float 0.5%float]
                 (100 * Binary64.pow7 0.5)%float None, binary64_canvas)))
    = []
  ∧ @Generic.placed float sample_engine (2 ^ 9 - 1)
      (Generic.new_GardenDirector [binary64_root 100%float 0.5%float]
         (100 * Binary64.pow7 0.5)%float None, binary64_canvas)
    = (2 ^ 9 - 1)%nat
  ∧ @Generic.never_below float sample_engine
      0x0.012688b70e62bp-1022%float 0x1.47ae147ae147bp-7%float
      (0x0.012688b70e62bp-1022 * Binary64.pow7 0x1.47ae147ae147bp-7)%float
  ∧ Generic.trees
      (fst (@Generic.steps float sample_engine 1000
              (Generic.new_GardenDirector
                 [binary64_root 0x0.012688b70e62bp-1022%float
                                0x1.47ae147ae147bp-7%float]
                 (0x0.012688b70e62bp-1022
                  * Binary64.pow7 0x1.47ae147ae147bp-7)%float None,
               binary64_canvas)))
    ≠ [].
Proof.
  assert (H : @Generic.first_below float sample_engine 100%float 0.5%float
                (100 * Binary64.pow7 0.5)%float 8)
    by (apply first_belowb_spec; vm_compute; reflexivity).
  split; [exact H|].
  destruct (@growth_by_generations float sample_engine (binary64_root 100%float 0.5%float)
              None binary64_canvas 8) as (_ & _ & Hterm & _).
  destruct (Hterm H) as (Hempty & _ & _ & Hplaced).
  split; [exact (Hempty _ (le_n _))|]. split; [exact Hplaced|].
  assert (Hn : @Generic.never_below float sample_engine
                 0x0.012688b70e62bp-1022%float 0x1.47ae147ae147bp-7%float
                 (0x0.012688b70e62bp-1022
                  * Binary64.pow7 0x1.47ae147ae147bp-7)%float)
    by exact (binary64_underflow_never_below (λ a, a) (λ a, a)
                (λ r _, Binary64.pow7 r) (or_intror (or_introl eq_refl))).
  split; [exact Hn|].
  destruct (@growth_by_generations float sample_engine
              (binary64_root 0x0.012688b70e62bp-1022%float
                             0x1.47ae147ae147bp-7%float)
              None binary64_canvas 0) as (_ & _ & _ & Hnever).
  exact (proj1 (Hnever Hn) 1000%nat).
Defined.

(** ** What the run paints, over any arithmetic *)


